(** * A cooperative counting semaphore (src/src/index.ts)

    Shallow embedding of the [Semaphore] class.  The class keeps a counter
    [_value] and an array [_waiters] of promise resolving functions.  Every
    method body runs to completion between two suspension points of the
    event loop, so a method call is one atomic transition of the object.

    The counter is a JavaScript [number], a binary64 double.  The methods
    only use [< 0], [=== 0], [+= 1] and [-= 1], so they are written once
    over an interface [Number].  The object of the program is the instance
    at the kernel's binary64 floats.  The instance at [Z] is the same code
    on unbounded integers; it is the model in which counting arguments are
    made, and [exec_as_doubles] carries them to the double counter for as
    long as the count stays between 0 and 2^53 - 1, where [+= 1] and
    [-= 1] are exact on doubles ([double_of_succ], [double_of_pred]). *)

From Stdlib Require Import String ZArith Bool Lia PeanoNat List.
From Stdlib Require Import Floats.
Import ListNotations.

Set Implicit Arguments.

(** ** Numbers *)

Class Number (num : Type) : Type := {
  zero : num;
  one : num;
  add : num -> num -> num;
  sub : num -> num -> num;
  lt : num -> num -> bool;
  strict_eq : num -> num -> bool
}.

#[export] Instance Z_Number : Number Z := {|
  zero := 0%Z;
  one := 1%Z;
  add := Z.add;
  sub := Z.sub;
  lt := Z.ltb;
  strict_eq := Z.eqb
|}.

#[export] Instance float_Number : Number float := {|
  zero := 0%float;
  one := 1%float;
  add := PrimFloat.add;
  sub := PrimFloat.sub;
  lt := PrimFloat.ltb;
  strict_eq := PrimFloat.eqb
|}.

(** ** The class *)

(** A waiter is the [resolve] function of the promise made at line 54.  Each
    [new Promise] makes a function distinct from all earlier ones; it is
    identified by the number of promises made before it. *)
Definition handle : Type := nat.

Inductive exn : Type :=
| Error (message : string).

(** What the caller of an [async] method sees when the call returns: the
    promise is already fulfilled, or it is pending on a queued [resolve]. *)
Inductive acquired : Type :=
| Returned
| Suspended (resolve : handle).

Section Class.

Context {num : Type} {N : Number num}.

Record Semaphore : Type := mkSemaphore {
  _value : num;
  _waiters : list handle
}.

(** Lines 26-32. *)
Definition constructor (value : num) : exn + Semaphore :=
  if lt value zero then
    inl (Error "Semaphore initial value must be >= 0")
  else
    inr {| _value := value; _waiters := [] |}.

(** Lines 37-39. *)
Definition locked (s : Semaphore) : bool :=
  strict_eq (_value s) zero || (0 <? length (_waiters s))%nat.

(** Lines 49-57, up to the [await].  [resolve] is the function that
    [new Promise] hands to the executor. *)
Definition acquire (resolve : handle) (s : Semaphore) : Semaphore * acquired :=
  if negb (locked s) then
    ({| _value := sub (_value s) one; _waiters := _waiters s |}, Returned)
  else
    ({| _value := _value s; _waiters := _waiters s ++ [resolve] |},
     Suspended resolve).

(** Line 57: what [acquire] does once its promise is resolved.  Nothing
    follows the [await], the method returns. *)
Definition acquire_resumed (s : Semaphore) : Semaphore := s.

(** Lines 85-92.  The second component is the call [next()], if made. *)
Definition _wakeUpNext (s : Semaphore) : Semaphore * option handle :=
  match _waiters s with
  | [] => (s, None)
  | next :: rest =>
      ({| _value := sub (_value s) one; _waiters := rest |}, Some next)
  end.

(** Lines 65-68. *)
Definition release (s : Semaphore) : Semaphore * option handle :=
  _wakeUpNext {| _value := add (_value s) one; _waiters := _waiters s |}.

(** ** The object in its runtime *)

(** The semaphore together with the count of promises made by [acquire]. *)
Record World : Type := mkWorld {
  this : Semaphore;
  promises : nat
}.

Definition boot (s : Semaphore) : World := {| this := s; promises := 0 |}.

Inductive op : Type :=
| Locked
| Acquire
| Release.

(** What a call lets its caller and the waiters observe. *)
Inductive event : Type :=
| Queried (answer : bool)
| Granted
| Enqueued (resolve : handle)
| Resumed (resolve : handle)
| Deposited.

(** [this.acquire()]: the promise of line 54 is made on the slow path
    only. *)
Definition acquire_call (w : World) : World * acquired :=
  match acquire (promises w) (this w) with
  | (s, Returned) => ({| this := s; promises := promises w |}, Returned)
  | (s, Suspended h) =>
      ({| this := s; promises := S (promises w) |}, Suspended h)
  end.

(** [this.release()]. *)
Definition release_call (w : World) : World * option handle :=
  let (s, woken) := release (this w) in
  ({| this := s; promises := promises w |}, woken).

Definition step (o : op) (w : World) : World * event :=
  match o with
  | Locked => (w, Queried (locked (this w)))
  | Acquire =>
      let (w1, a) := acquire_call w in
      (w1, match a with Returned => Granted | Suspended h => Enqueued h end)
  | Release =>
      let (w1, woken) := release_call w in
      (w1, match woken with Some h => Resumed h | None => Deposited end)
  end.

(** A schedule: the calls made on the object, in the order the event loop
    runs them. *)
Fixpoint exec (ops : list op) (w : World) : World * list event :=
  match ops with
  | [] => (w, [])
  | o :: rest =>
      let (w1, e) := step o w in
      let (w2, es) := exec rest w1 in
      (w2, e :: es)
  end.

(** [release()] called [n] times in a row, with the waiters it woke. *)
Fixpoint release_many (n : nat) (s : Semaphore) : Semaphore * list handle :=
  match n with
  | O => (s, [])
  | S m =>
      let (s1, woken) := release s in
      let (s2, more) := release_many m s1 in
      (s2, match woken with Some h => h :: more | None => more end)
  end.

(** ** Reading a schedule and its events *)

Fixpoint resumes (es : list event) : list handle :=
  match es with
  | [] => []
  | Resumed h :: rest => h :: resumes rest
  | _ :: rest => resumes rest
  end.

Fixpoint enqueues (es : list event) : list handle :=
  match es with
  | [] => []
  | Enqueued h :: rest => h :: enqueues rest
  | _ :: rest => enqueues rest
  end.

Fixpoint acquires (ops : list op) : nat :=
  match ops with
  | [] => 0
  | Acquire :: rest => S (acquires rest)
  | _ :: rest => acquires rest
  end.

Fixpoint releases (ops : list op) : nat :=
  match ops with
  | [] => 0
  | Release :: rest => S (releases rest)
  | _ :: rest => releases rest
  end.

(** Calls of [acquire] not yet matched by a [release]. *)
Definition outstanding (ops : list op) : Z :=
  (Z.of_nat (acquires ops) - Z.of_nat (releases ops))%Z.

Definition queries_only (ops : list op) : Prop :=
  Forall (fun o => o = Locked) ops.

(** ** [run] *)

(** What [await task()] gives inside the [try]: the value the task's
    promise is fulfilled with, or the reason it is rejected with (a throw of
    the call [task()] itself reaches the [finally] in the same way). *)
Inductive settled (T : Type) : Type :=
| Fulfilled (value : T)
| Rejected (reason : exn).

Inductive run_event (T : Type) : Type :=
| AcquireCalled (a : acquired)
| TaskInvoked
| ReleaseCalled (woken : option handle)
| RunSettled (result : settled T).

Section Run.

Variable T : Type.

(** Line 74, up to the [await]. *)
Definition run_acquire (w : World) : World * acquired * list (run_event T) :=
  let (w1, a) := acquire_call w in
  (w1, a, [AcquireCalled T a]).

(** Line 76, up to the [await]: the call [task()]. *)
Definition run_task (w : World) : World * list (run_event T) :=
  (w, [TaskInvoked T]).

(** Lines 77-79: the [finally] block, after which the promise of [run]
    settles as the task did. *)
Definition run_finally (r : settled T) (w : World)
  : World * list (run_event T) :=
  let (w1, woken) := release_call w in
  (w1, [ReleaseCalled T woken; RunSettled r]).

(** The promise awaited at line 74 is resolved: at once on the fast path,
    by the [release] that calls its [resolve] otherwise. *)
Definition granted (a : acquired) (es : list event) : bool :=
  match a with
  | Returned => true
  | Suspended h => existsb (Nat.eqb h) (resumes es)
  end.

(** One call of [run]: [before] are the calls other tasks make while [run]
    awaits [acquire], [during] those made (by the task or by others) while
    it awaits the task, and [r] is how the task ends.  [None]: still
    suspended at line 74. *)
Definition run (before during : list op) (r : settled T) (w : World)
  : option (World * list (run_event T)) :=
  let '(w1, a, l1) := run_acquire w in
  let (w2, es) := exec before w1 in
  if granted a es then
    let (w3, l2) := run_task w2 in
    let (w4, _) := exec during w3 in
    let (w5, l3) := run_finally r w4 in
    Some (w5, l1 ++ l2 ++ l3)
  else None.

End Run.

(** ** Reachable states *)

Inductive reachable : World -> Prop :=
| reach_construct (value : num) (s : Semaphore) :
    constructor value = inr s -> reachable (boot s)
| reach_call (o : op) (w : World) :
    reachable w -> reachable (fst (step o w))
| reach_run (T : Type) (before during : list op) (r : settled T)
    (w w' : World) (l : list (run_event T)) :
    reachable w -> run before during r w = Some (w', l) -> reachable w'.

(** The waiters are the promises numbered from [lo] on. *)
Definition queue_from (lo : nat) (w : World) : Prop :=
  lo <= promises w /\ _waiters (this w) = seq lo (promises w - lo).

End Class.

Arguments Semaphore num : clear implicits.
Arguments World num : clear implicits.

(** The two invariants of the data model, on integer counts. *)
Definition invariant (w : World Z) : Prop :=
  (0 <= _value (this w))%Z /\
  (_waiters (this w) <> [] -> _value (this w) = 0%Z).

(** ** More readings of a schedule *)

(** Permits handed out along a schedule: one for each call of [acquire]
    that returned at once and one for each waiter resumed. *)
Fixpoint grants (es : list event) : nat :=
  match es with
  | [] => 0
  | Granted :: rest => S (grants rest)
  | Resumed _ :: rest => S (grants rest)
  | _ :: rest => grants rest
  end.

Definition is_query (o : op) : bool :=
  match o with
  | Locked => true
  | _ => false
  end.

Definition is_answer (e : event) : bool :=
  match e with
  | Queried _ => true
  | _ => false
  end.

(** A schedule with its calls of [locked] left out, and a list of events
    with the answers to such calls left out. *)
Definition without_queries (ops : list op) : list op :=
  filter (fun o => negb (is_query o)) ops.

Definition without_answers (es : list event) : list event :=
  filter (fun e => negb (is_answer e)) es.

(** No caller was made to wait and [locked] never answered [true]. *)
Definition never_waits (es : list event) : Prop :=
  Forall (fun e => e = Granted \/ e = Deposited \/ e = Queried false) es.

(** ** Integer counts held in doubles *)

(** [Number.MAX_SAFE_INTEGER], that is 2^53 - 1. *)
Definition max_safe : Z := 9007199254740991.

(** The double for the integer [z]: [z] rounded to binary64. *)
Definition double_of (z : Z) : float :=
  SF2Prim (binary_normalize prec emax z 0 false).

(** The integer that a double holds exactly, when it holds one. *)
Definition integer_of (x : float) : option Z :=
  match Prim2SF x with
  | S754_zero _ => Some 0%Z
  | S754_finite s m e =>
      if (0 <=? e)%Z then Some (cond_Zopp s (Zpos m * 2 ^ e))
      else if (Zpos m mod 2 ^ (- e) =? 0)%Z
           then Some (cond_Zopp s (Zpos m / 2 ^ (- e)))
           else None
  | _ => None
  end.

(** [p] with [k] zero bits appended. *)
Definition shl (k : nat) (p : positive) : positive := Nat.iter k xO p.

(** The normal form binary64 gives a positive integer below 2^53: a
    mantissa of 53 bits. *)
Definition canon (q : positive) : spec_float :=
  S754_finite false (shl (Z.to_nat (53 - Zpos (digits2_pos q))) q)
    (Zpos (digits2_pos q) - 53).

(** A semaphore with an integer counter, as the object the runtime holds. *)
Definition as_double (s : Semaphore Z) : Semaphore float :=
  {| _value := double_of (_value s); _waiters := _waiters s |}.

Definition as_doubles (w : World Z) : World float :=
  {| this := as_double (this w); promises := promises w |}.

(** The integer counter stays at most [max_safe] all along a schedule. *)
Fixpoint safe (ops : list op) (w : World Z) : bool :=
  (_value (this w) <=? max_safe)%Z &&
  match ops with
  | [] => true
  | o :: rest => safe rest (fst (step o w))
  end.

(** With [held] calls of [acquire] not yet matched, no [release] in the
    schedule comes without a call of [acquire] to match. *)
Fixpoint balanced (held : nat) (ops : list op) : bool :=
  match ops with
  | [] => true
  | Locked :: rest => balanced held rest
  | Acquire :: rest => balanced (S held) rest
  | Release :: rest =>
      match held with
      | O => false
      | S h => balanced h rest
      end
  end.

Definition no_over_release (ops : list op) : bool := balanced 0 ops.

(** * Properties *)

(** ** Facts that hold for every kind of number *)

Section Facts.

Context {num : Type} {N : Number num}.

Implicit Types (s : Semaphore num) (w : World num) (ops : list op).

Lemma locked_false_waiters s : locked s = false -> _waiters s = [].
Proof.
  unfold locked. intros H. apply orb_false_elim in H as [_ H].
  destruct (_waiters s); [reflexivity | discriminate].
Qed.

Lemma locked_waiting s h rest : _waiters s = h :: rest -> locked s = true.
Proof.
  unfold locked. intros ->. apply orb_true_r.
Qed.

Lemma acquire_fast h s :
  locked s = false ->
  acquire h s =
    ({| _value := sub (_value s) one; _waiters := _waiters s |}, Returned).
Proof. unfold acquire. intros ->. reflexivity. Qed.

Lemma acquire_slow h s :
  locked s = true ->
  acquire h s =
    ({| _value := _value s; _waiters := _waiters s ++ [h] |}, Suspended h).
Proof. unfold acquire. intros ->. reflexivity. Qed.

Lemma release_empty s :
  _waiters s = [] ->
  release s = ({| _value := add (_value s) one; _waiters := [] |}, None).
Proof. unfold release, _wakeUpNext. cbn. intros ->. reflexivity. Qed.

Lemma release_head s next rest :
  _waiters s = next :: rest ->
  release s =
    ({| _value := sub (add (_value s) one) one; _waiters := rest |},
     Some next).
Proof. unfold release, _wakeUpNext. cbn. intros ->. reflexivity. Qed.

(** *** Schedules *)

Lemma exec_app ops1 ops2 w :
  exec (ops1 ++ ops2) w =
    let (w1, es1) := exec ops1 w in
    let (w2, es2) := exec ops2 w1 in
    (w2, es1 ++ es2).
Proof.
  revert w. induction ops1 as [|o ops1 IH]; intros w; cbn.
  - destruct (exec ops2 w); reflexivity.
  - destruct (step o w) as [w1 e]. rewrite IH.
    destruct (exec ops1 w1) as [w2 es1].
    destruct (exec ops2 w2) as [w3 es2]. reflexivity.
Qed.

Lemma exec_split ops w w' l1 e l2 :
  exec ops w = (w', l1 ++ e :: l2) ->
  exists ops1 o ops2 w1 w2,
    ops = ops1 ++ o :: ops2 /\
    exec ops1 w = (w1, l1) /\ step o w1 = (w2, e) /\
    exec ops2 w2 = (w', l2).
Proof.
  revert w l1. induction ops as [|o ops IH]; intros w l1 H; cbn in H.
  - destruct l1; discriminate.
  - destruct (step o w) as [w1 e1] eqn:Hs.
    destruct (exec ops w1) as [w2 es] eqn:He.
    destruct l1 as [|e0 l1]; cbn in H; inversion H; subst.
    + exists [], o, ops, w, w1. cbn. auto.
    + destruct (IH _ _ He) as (ops1 & o' & ops2 & u1 & u2 & -> & H1 & H2 & H3).
      exists (o :: ops1), o', ops2, u1, u2. cbn. rewrite Hs, H1. auto.
Qed.

Lemma exec_queries ops w : queries_only ops -> fst (exec ops w) = w.
Proof.
  induction 1 as [|o ops -> _ IH]; cbn; [reflexivity|].
  destruct (exec ops w); exact IH.
Qed.

Lemma resumes_app (l1 l2 : list event) :
  resumes (l1 ++ l2) = resumes l1 ++ resumes l2.
Proof.
  induction l1 as [|[] l1 IH]; cbn; rewrite ?IH; reflexivity.
Qed.

Lemma enqueues_app (l1 l2 : list event) :
  enqueues (l1 ++ l2) = enqueues l1 ++ enqueues l2.
Proof.
  induction l1 as [|[] l1 IH]; cbn; rewrite ?IH; reflexivity.
Qed.

Lemma resumes_In h (es : list event) : In h (resumes es) <-> In (Resumed h) es.
Proof.
  induction es as [|[] es IH]; cbn; try tauto;
    try (rewrite IH; split; [tauto | intros [H|H]; [discriminate | tauto]]).
  rewrite IH. split; intros [H|H]; auto; left; congruence.
Qed.

(** *** [run] is an [acquire], the task, and a [release] *)

Lemma run_exec T before during (r : settled T) w w' l :
  run before during r w = Some (w', l) ->
  fst (exec (Acquire :: before ++ during ++ [Release]) w) = w'.
Proof.
  unfold run, run_acquire, run_task, run_finally. cbn.
  destruct (acquire_call w) as [w1 a]. rewrite exec_app.
  destruct (exec before w1) as [w2 es]. rewrite exec_app.
  destruct (granted a es); [|discriminate].
  destruct (exec during w2) as [w4 es']. cbn.
  destruct (release_call w4) as [w5 woken]. cbn.
  intros H; inversion H; reflexivity.
Qed.

Lemma reachable_exec ops w : reachable w -> reachable (fst (exec ops w)).
Proof.
  revert w. induction ops as [|o ops IH]; intros w H; cbn; [exact H|].
  specialize (IH _ (reach_call o H)).
  destruct (step o w) as [w1 e]. cbn in IH.
  destruct (exec ops w1). exact IH.
Qed.

Lemma reachable_ind_calls (P : World num -> Prop) :
  (forall value s, constructor value = inr s -> P (boot s)) ->
  (forall o w, P w -> P (fst (step o w))) ->
  forall w, reachable w -> P w.
Proof.
  intros Hnew Hstep.
  assert (Hexec : forall ops w, P w -> P (fst (exec ops w))).
  { induction ops as [|o ops IH]; intros w H; cbn; [exact H|].
    specialize (IH _ (Hstep o _ H)).
    destruct (step o w) as [w1 e]. cbn in IH.
    destruct (exec ops w1). exact IH. }
  induction 1 as [value s H | o w _ IH | T before during r w w' l _ IH Hrun].
  - eauto.
  - auto.
  - rewrite <- (run_exec _ _ _ _ Hrun). auto.
Qed.

(** *** The queue holds consecutive promises *)

Lemma seq_glue lo mid hi :
  lo <= mid -> mid <= hi ->
  seq lo (mid - lo) ++ seq mid (hi - mid) = seq lo (hi - lo).
Proof.
  intros H1 H2. replace (hi - lo) with ((mid - lo) + (hi - mid)) by lia.
  rewrite seq_app. do 2 f_equal. lia.
Qed.

Lemma step_queue o w w' e lo :
  queue_from lo w -> step o w = (w', e) ->
  exists lo',
    queue_from lo' w' /\ lo <= lo' /\ promises w <= promises w' /\
    resumes [e] = seq lo (lo' - lo) /\
    enqueues [e] = seq (promises w) (promises w' - promises w).
Proof.
  intros [Hlo Hq] Hs. destruct o; cbn in Hs.
  - inversion Hs; subst. exists lo. rewrite !Nat.sub_diag.
    repeat split; auto.
  - unfold acquire_call in Hs. destruct (locked (this w)) eqn:Hl.
    + rewrite (acquire_slow _ _ Hl) in Hs. inversion Hs; subst; clear Hs.
      exists lo. unfold queue_from. cbn [this promises _waiters resumes enqueues].
      rewrite Hq, Nat.sub_diag.
      replace (S (promises w) - promises w) with 1 by lia.
      replace (S (promises w) - lo) with (S (promises w - lo)) by lia.
      rewrite seq_S. replace (lo + (promises w - lo)) with (promises w) by lia.
      repeat split; auto.
    + rewrite (acquire_fast _ _ Hl) in Hs. inversion Hs; subst; clear Hs.
      exists lo. unfold queue_from. cbn [this promises _waiters resumes enqueues].
      rewrite !Nat.sub_diag. repeat split; auto.
  - unfold release_call in Hs. destruct (_waiters (this w)) as [|x rest] eqn:Hw.
    + rewrite (release_empty _ Hw) in Hs. inversion Hs; subst; clear Hs.
      exists lo. unfold queue_from. cbn [this promises _waiters resumes enqueues].
      rewrite !Nat.sub_diag. repeat split; auto.
    + rewrite (release_head _ Hw) in Hs. inversion Hs; subst; clear Hs.
      destruct (promises w - lo) as [|n] eqn:Hn; [discriminate|].
      cbn in Hq. inversion Hq; subst. exists (S lo). unfold queue_from.
      cbn [this promises _waiters resumes enqueues].
      rewrite Nat.sub_diag. replace (S lo - lo) with 1 by lia.
      replace (promises w - S lo) with n by lia.
      repeat split; auto; lia.
Qed.

Lemma exec_queue ops w w' es lo :
  queue_from lo w -> exec ops w = (w', es) ->
  exists lo',
    queue_from lo' w' /\ lo <= lo' /\ promises w <= promises w' /\
    resumes es = seq lo (lo' - lo) /\
    enqueues es = seq (promises w) (promises w' - promises w).
Proof.
  revert w es lo. induction ops as [|o ops IH]; intros w es lo Hq He; cbn in He.
  - inversion He; subst. exists lo. rewrite !Nat.sub_diag.
    destruct Hq. repeat split; auto.
  - destruct (step o w) as [w1 e] eqn:Hs.
    destruct (exec ops w1) as [w2 es'] eqn:He'. inversion He; subst; clear He.
    destruct (step_queue _ Hq Hs) as (lo1 & Hq1 & Hl1 & Hp1 & Hr1 & Hn1).
    destruct (IH _ _ _ Hq1 He') as (lo2 & Hq2 & Hl2 & Hp2 & Hr2 & Hn2).
    exists lo2. repeat split; try apply Hq2; try lia.
    + change (e :: es') with ([e] ++ es').
      rewrite resumes_app, Hr1, Hr2. apply seq_glue; assumption.
    + change (e :: es') with ([e] ++ es').
      rewrite enqueues_app, Hn1, Hn2. apply seq_glue; assumption.
Qed.

Lemma reachable_queue w : reachable w -> exists lo, queue_from lo w.
Proof.
  revert w. apply reachable_ind_calls.
  - intros value s H. exists 0. unfold constructor in H.
    destruct (lt value zero); inversion H; subst. split; reflexivity.
  - intros o w [lo Hq]. destruct (step o w) as [w1 e] eqn:Hs.
    destruct (step_queue _ Hq Hs) as (lo1 & Hq1 & _). exists lo1. exact Hq1.
Qed.

(** *** A [release] resumes a waiter whenever there is one *)

Lemma exec_resumes_count ops w :
  length (resumes (snd (exec ops w))) <= releases ops /\
  Nat.min (releases ops) (length (_waiters (this w)))
    <= length (resumes (snd (exec ops w))).
Proof.
  revert w. induction ops as [|o ops IH]; intros w; cbn; [lia|].
  destruct (step o w) as [w1 e] eqn:Hs. specialize (IH w1).
  destruct (exec ops w1) as [w2 es]. cbn in IH |- *.
  destruct o; cbn in Hs.
  - inversion Hs; subst. cbn. exact IH.
  - unfold acquire_call in Hs. destruct (locked (this w)) eqn:Hl.
    + rewrite (acquire_slow _ _ Hl) in Hs. inversion Hs; subst; clear Hs.
      cbn in *. rewrite length_app in IH. cbn in IH. lia.
    + rewrite (acquire_fast _ _ Hl) in Hs. inversion Hs; subst; clear Hs.
      cbn in *. lia.
  - unfold release_call in Hs. destruct (_waiters (this w)) as [|x rest] eqn:Hw.
    + rewrite (release_empty _ Hw) in Hs. inversion Hs; subst; clear Hs.
      cbn in *. lia.
    + rewrite (release_head _ Hw) in Hs. inversion Hs; subst; clear Hs.
      cbn in *. lia.
Qed.

Lemma step_granted o w w' : step o w = (w', Granted) -> _waiters (this w) = [].
Proof.
  destruct o; cbn; [discriminate | |].
  - unfold acquire_call. destruct (locked (this w)) eqn:Hl.
    + rewrite (acquire_slow _ _ Hl). discriminate.
    + intros _. exact (locked_false_waiters _ Hl).
  - destruct (release_call w) as [w1 [h|]]; discriminate.
Qed.

Lemma seq_singleton a lo n : [a] = seq lo n -> a = lo /\ n = 1.
Proof.
  destruct n as [|[|n]]; cbn; intros H; inversion H; auto.
Qed.

Lemma seq_empty lo n : [] = seq lo n -> n = 0.
Proof. destruct n; cbn; [reflexivity | discriminate]. Qed.

(** Arrival order, from a state whose queue holds consecutive promises. *)
Lemma exec_fifo ops w w' es lo :
  queue_from lo w -> exec ops w = (w', es) ->
  (forall l1 a l2 l3,
     es = l1 ++ Enqueued a :: l2 ++ Granted :: l3 -> In (Resumed a) l2) /\
  (forall l1 a l2 b l3 m1 m2,
     es = l1 ++ Enqueued a :: l2 ++ Enqueued b :: l3 ->
     es = m1 ++ Resumed b :: m2 -> In (Resumed a) m1).
Proof.
  intros Hq He.
  assert (Hfirst : forall l1 a l2,
    es = l1 ++ Enqueued a :: l2 ->
    exists w2 ops2 lo2,
      lo <= a /\ lo2 <= a /\ queue_from lo2 w2 /\ promises w2 = S a /\
      exec ops2 w2 = (w', l2)).
  { intros l1 a l2 ->.
    destruct (exec_split _ _ _ _ _ He)
      as (ops1 & o & ops2 & w1 & w2 & _ & H1 & Hs & H2).
    destruct (exec_queue _ Hq H1) as (lo1 & Hq1 & Hl1 & Hp1 & _).
    destruct (step_queue _ Hq1 Hs) as (lo2 & Hq2 & Hl2 & Hp2 & Hr2 & Hn2).
    apply seq_singleton in Hn2 as [-> Hn2]. apply seq_empty in Hr2.
    destruct Hq as [Hq _]. destruct Hq1 as [Hq1 _].
    exists w2, ops2, lo2. repeat split; try apply Hq2; auto; lia. }
  split.
  - intros l1 a l2 l3 E.
    destruct (Hfirst _ _ _ E) as (w2 & ops2 & lo2 & _ & Hlo2 & Hq2 & Hp2 & H2).
    destruct (exec_split _ _ _ _ _ H2)
      as (opsA & o & opsB & w3 & w4 & _ & HA & Hs & _).
    destruct (exec_queue _ Hq2 HA) as (lo3 & Hq3 & Hl3 & Hp3 & Hr3 & _).
    apply step_granted in Hs. destruct Hq3 as [Hb3 Hq3].
    rewrite Hs in Hq3. apply seq_empty in Hq3.
    apply resumes_In. rewrite Hr3. apply in_seq. lia.
  - intros l1 a l2 b l3 m1 m2 E1 E2.
    destruct (Hfirst _ _ _ E1) as (w2 & ops2 & lo2 & Hlo & _ & Hq2 & Hp2 & H2).
    assert (Hab : a < b).
    { destruct (exec_split _ _ _ _ _ H2)
        as (opsA & o & opsB & w3 & w4 & _ & HA & Hs & _).
      destruct (exec_queue _ Hq2 HA) as (lo3 & Hq3 & _ & Hp3 & _).
      destruct (step_queue _ Hq3 Hs) as (lo4 & _ & _ & _ & _ & Hn4).
      apply seq_singleton in Hn4 as [-> _]. lia. }
    rewrite E2 in He.
    destruct (exec_split _ _ _ _ _ He)
      as (opsM & o & opsN & v1 & v2 & _ & HM & Hs & _).
    destruct (exec_queue _ Hq HM) as (lo1 & Hq1 & Hl1 & _ & Hr1 & _).
    destruct (step_queue _ Hq1 Hs) as (lo5 & _ & _ & _ & Hr5 & _).
    apply seq_singleton in Hr5 as [-> _].
    apply resumes_In. rewrite Hr1. apply in_seq. lia.
Qed.

End Facts.


(** ** Integer counts: the counter read as an unbounded integer *)

Lemma locked_Z (s : Semaphore Z) :
  locked s = true <-> _value s = 0%Z \/ _waiters s <> [].
Proof.
  unfold locked. rewrite orb_true_iff.
  change (strict_eq (_value s) zero) with (Z.eqb (_value s) 0).
  rewrite Z.eqb_eq. destruct (_waiters s); cbn.
  - split; intros [H|H]; auto; congruence.
  - split; intros _; right; congruence.
Qed.

Lemma unlocked_Z (s : Semaphore Z) :
  locked s = false <-> _value s <> 0%Z /\ _waiters s = [].
Proof.
  split.
  - intros H. split; [|exact (locked_false_waiters _ H)].
    intros E. assert (locked s = true) by (apply locked_Z; auto). congruence.
  - intros [Hv Hw]. destruct (locked s) eqn:Hl; [|reflexivity].
    apply locked_Z in Hl as [|]; contradiction.
Qed.

Lemma step_invariant o (w : World Z) : invariant w -> invariant (fst (step o w)).
Proof.
  intros [Hv Hw]. unfold invariant. destruct o; cbn; [split; assumption | |].
  - unfold acquire_call. destruct (locked (this w)) eqn:Hl.
    + rewrite (acquire_slow _ _ Hl). cbn. split; [assumption|]. intros _.
      apply locked_Z in Hl as [|]; auto.
    + rewrite (acquire_fast _ _ Hl). apply unlocked_Z in Hl as [Hn He].
      cbn. split; [lia | congruence].
  - unfold release_call. destruct (_waiters (this w)) as [|x rest] eqn:Hq.
    + rewrite (release_empty _ Hq). cbn. split; [lia | congruence].
    + rewrite (release_head _ Hq). cbn.
      assert (_value (this w) = 0%Z) as -> by (apply Hw; congruence).
      split; [lia | reflexivity].
Qed.

Lemma reachable_invariant (w : World Z) : reachable w -> invariant w.
Proof.
  revert w. apply reachable_ind_calls.
  - intros value s H. unfold constructor in H. cbn in H.
    destruct (Z.ltb_spec value 0); inversion H; subst.
    split; cbn; [assumption | congruence].
  - intros o w. apply step_invariant.
Qed.

(** Every call moves [_value - length _waiters] by one: down for an
    [acquire], up for a [release]. *)
Lemma exec_balance ops (w : World Z) :
  let w' := fst (exec ops w) in
  (_value (this w') - Z.of_nat (length (_waiters (this w'))) =
   _value (this w) - Z.of_nat (length (_waiters (this w))) - outstanding ops)%Z.
Proof.
  revert w. induction ops as [|o ops IH]; intros w; cbn.
  - unfold outstanding. cbn. lia.
  - destruct (step o w) as [w1 e] eqn:Hs. specialize (IH w1). cbn in IH.
    destruct (exec ops w1) as [w2 es]. cbn in IH |- *. rewrite IH. clear IH.
    unfold outstanding. destruct o; cbn in Hs.
    + inversion Hs; subst. cbn. lia.
    + unfold acquire_call in Hs. destruct (locked (this w)) eqn:Hl.
      * rewrite (acquire_slow _ _ Hl) in Hs. inversion Hs; subst.
        cbn [this _value _waiters acquires releases].
        rewrite length_app. cbn [length]. lia.
      * rewrite (acquire_fast _ _ Hl) in Hs. inversion Hs; subst.
        cbn [this _value _waiters acquires releases sub one Z_Number]. lia.
    + unfold release_call in Hs.
      destruct (_waiters (this w)) as [|x rest] eqn:Hq.
      * rewrite (release_empty _ Hq) in Hs. inversion Hs; subst.
        cbn [this _value _waiters acquires releases add one Z_Number length].
        lia.
      * rewrite (release_head _ Hq) in Hs. inversion Hs; subst.
        cbn [this _value _waiters acquires releases add sub one Z_Number length].
        lia.
Qed.

Lemma release_many_Z n (s : Semaphore Z) :
  release_many n s =
    ({| _value := (_value s + Z.of_nat (n - length (_waiters s)))%Z;
        _waiters := skipn n (_waiters s) |},
     firstn n (_waiters s)).
Proof.
  revert s. induction n as [|n IH]; intros [v ws]; cbn [release_many].
  - cbn. rewrite Z.add_0_r. reflexivity.
  - destruct ws as [|x rest].
    + rewrite (release_empty (mkSemaphore v []) eq_refl), IH. cbn.
      rewrite skipn_nil, firstn_nil. do 2 f_equal. lia.
    + rewrite (release_head (mkSemaphore v (x :: rest)) eq_refl), IH. cbn.
      do 2 f_equal. lia.
Qed.

(** ** The constructor *)

(** C7.  On an integer [n] the constructor throws, making no object, exactly
    when [n < 0]; for every [n >= 0] it makes a semaphore whose counter is
    [n] and whose queue of waiters is empty. *)
Theorem constructor_rejects_negative (n : Z) :
  (constructor n = inl (Error "Semaphore initial value must be >= 0")
     <-> (n < 0)%Z) /\
  ((forall s, constructor n <> inr s) <-> (n < 0)%Z) /\
  (constructor n = inr {| _value := n; _waiters := [] |} <-> (0 <= n)%Z).
Proof.
  unfold constructor. cbn [lt zero Z_Number].
  destruct (Z.ltb_spec n 0) as [H|H]; repeat split; intros; try lia;
    try congruence; try discriminate.
  exfalso. eapply H0. reflexivity.
Qed.

(** C10.  On a double [x] the constructor only tests [x < 0]: every [x] for
    which the test is false is stored as it is, whole or not.  [0.5], which
    lies strictly between 0 and 1, and [NaN], for which [NaN < 0] is false,
    are both accepted and become the counter; only an [x] that compares
    below 0 is rejected. *)
Theorem constructor_accepts_any_number (x : float) :
  (constructor x = inr {| _value := x; _waiters := [] |}
     <-> PrimFloat.ltb x 0 = false) /\
  (constructor x = inl (Error "Semaphore initial value must be >= 0")
     <-> PrimFloat.ltb x 0 = true) /\
  (PrimFloat.ltb 0 0.5 = true /\ PrimFloat.ltb 0.5 1 = true /\
   constructor 0.5%float = inr {| _value := 0.5%float; _waiters := [] |}) /\
  (PrimFloat.ltb nan 0 = false /\
   constructor nan = inr {| _value := nan; _waiters := [] |}).
Proof.
  unfold constructor. cbn [lt zero float_Number].
  repeat split; try reflexivity;
    destruct (PrimFloat.ltb x 0); intros; congruence.
Qed.

(** ** [locked] *)

(** C6.  [locked()] answers [true] exactly when the counter is 0 or a waiter
    is queued, which is exactly when a call of [acquire] made now would
    suspend; the call changes nothing in the object. *)
Theorem locked_iff_acquire_would_wait (s : Semaphore Z) :
  (locked s = true <-> _value s = 0%Z \/ _waiters s <> []) /\
  (forall h, locked s = true <-> snd (acquire h s) = Suspended h) /\
  (forall p,
     step Locked {| this := s; promises := p |} =
       ({| this := s; promises := p |}, Queried (locked s))).
Proof.
  split; [apply locked_Z|]. split; [|reflexivity].
  intros h. unfold acquire. destruct (locked s); cbn; split; congruence.
Qed.

(** ** Invariants *)

(** C4.  In every reachable state a queued waiter means the counter is 0;
    so a call of [acquire] that suspends finds the counter at 0, and one
    that finds a positive counter returns with a permit. *)
Theorem waiters_only_without_permits (w : World Z) :
  reachable w ->
  (_waiters (this w) <> [] -> _value (this w) = 0%Z) /\
  (forall h, snd (acquire h (this w)) = Suspended h ->
     _value (this w) = 0%Z) /\
  (forall h, (0 < _value (this w))%Z ->
     acquire h (this w) =
       ({| _value := (_value (this w) - 1)%Z; _waiters := [] |}, Returned)).
Proof.
  intros H. destruct (reachable_invariant H) as [Hv Hw].
  assert (Hl : locked (this w) = true -> _value (this w) = 0%Z).
  { intros Hl. apply locked_Z in Hl as [|]; auto. }
  split; [exact Hw|]. split.
  - intros h. unfold acquire. destruct (locked (this w)); cbn; [auto|].
    discriminate.
  - intros h Hpos. destruct (locked (this w)) eqn:E.
    + specialize (Hl eq_refl). lia.
    + rewrite (acquire_fast _ _ E). apply unlocked_Z in E as [_ ->].
      reflexivity.
Qed.

(** ** Order of service *)

(** C5.  From any reachable state and along any schedule: the waiters
    resumed so far, followed by those still queued, are the waiters that
    were queued at the start followed by those enqueued since, in that
    order, and no waiter is enqueued or resumed twice.  Hence a caller [a]
    that was enqueued before a later call of [acquire] is resumed before
    that call is granted, whether the later call returns at once ([Granted])
    or is itself enqueued and resumed later. *)
Theorem waiters_resumed_in_arrival_order
  (num : Type) (N : Number num) (w w' : World num)
  (ops : list op) (es : list event) :
  reachable w -> exec ops w = (w', es) ->
  resumes es ++ _waiters (this w') = _waiters (this w) ++ enqueues es /\
  NoDup (enqueues es) /\ NoDup (resumes es) /\
  (forall l1 a l2 l3,
     es = l1 ++ Enqueued a :: l2 ++ Granted :: l3 -> In (Resumed a) l2) /\
  (forall l1 a l2 b l3 m1 m2,
     es = l1 ++ Enqueued a :: l2 ++ Enqueued b :: l3 ->
     es = m1 ++ Resumed b :: m2 -> In (Resumed a) m1).
Proof.
  intros Hr He. destruct (reachable_queue Hr) as [lo Hq].
  destruct (exec_queue _ Hq He) as (lo' & [Hb' Hq'] & Hl & Hp & Hres & Henq).
  destruct Hq as [Hb Hw]. repeat split.
  - rewrite Hres, Hq', Hw, Henq, !seq_glue by lia. reflexivity.
  - rewrite Henq. apply seq_NoDup.
  - rewrite Hres. apply seq_NoDup.
  - apply (exec_fifo _ (conj Hb Hw) He).
  - apply (exec_fifo _ (conj Hb Hw) He).
Qed.

(** ** A queued caller waits for its turn *)

Lemma enqueued_until_released (num : Type) (N : Number num)
  (w : World num) (ops : list op) :
  reachable w -> locked (this w) = true ->
  step Acquire w =
    ({| this := {| _value := _value (this w);
                   _waiters := _waiters (this w) ++ [promises w] |};
        promises := S (promises w) |},
     Enqueued (promises w)) /\
  ~ In (promises w) (_waiters (this w)) /\
  (In (Resumed (promises w)) (snd (exec ops (fst (step Acquire w))))
     <-> length (_waiters (this w)) < releases ops).
Proof.
  intros Hr Hl. destruct (reachable_queue Hr) as [lo Hq].
  assert (Hs : step Acquire w =
    ({| this := {| _value := _value (this w);
                   _waiters := _waiters (this w) ++ [promises w] |};
        promises := S (promises w) |},
     Enqueued (promises w))).
  { cbn. unfold acquire_call. rewrite (acquire_slow _ _ Hl). reflexivity. }
  split; [exact Hs|]. rewrite Hs. cbn [fst].
  destruct (step_queue _ Hq Hs) as (lo1 & Hq1 & Hl1 & _ & Hr1 & _).
  apply seq_empty in Hr1. assert (lo1 = lo) as -> by (destruct Hq; lia).
  destruct Hq as [Hb Hw]. split.
  - rewrite Hw, in_seq. lia.
  - match goal with |- context [exec ops ?u] => set (w1 := u) in * end.
    destruct (exec_resumes_count ops w1) as [Hle Hge].
    destruct (exec ops w1) as [w2 es] eqn:He. cbn [snd] in *.
    destruct (exec_queue _ Hq1 He) as (lo2 & _ & Hl2 & _ & Hres & _).
    rewrite <- resumes_In, Hres, in_seq. rewrite Hres, length_seq in Hle, Hge.
    subst w1. cbn [this _waiters] in Hge. rewrite length_app in Hge.
    cbn [length] in Hge. rewrite Hw, length_seq in Hge.
    rewrite Hw, length_seq. lia.
Qed.

(** ** The theorems at work *)

Lemma waiters_only_without_permits_witness :
  reachable (fst (exec [Acquire; Acquire] (boot (mkSemaphore 1%Z [])))) /\
  _waiters (this (fst (exec [Acquire; Acquire] (boot (mkSemaphore 1%Z [])))))
    = [0] /\
  _value (this (fst (exec [Acquire; Acquire] (boot (mkSemaphore 1%Z [])))))
    = 0%Z.
Proof.
  assert (H : reachable
    (fst (exec [Acquire; Acquire] (boot (mkSemaphore 1%Z []))))).
  { apply reachable_exec. apply (reach_construct 1%Z). reflexivity. }
  split; [exact H|]. split; [reflexivity|].
  apply (proj1 (waiters_only_without_permits H)). discriminate.
Defined.

Lemma waiters_resumed_in_arrival_order_witness :
  reachable (boot (mkSemaphore 1%Z [])) /\
  exec [Acquire; Acquire; Acquire; Release; Release]
    (boot (mkSemaphore 1%Z [])) =
    ({| this := mkSemaphore 0%Z []; promises := 2 |},
     [Granted; Enqueued 0; Enqueued 1; Resumed 0; Resumed 1]) /\
  In (Resumed 0) [Granted; Enqueued 0; Enqueued 1; Resumed 0].
Proof.
  assert (H : reachable (boot (mkSemaphore 1%Z [])))
    by (apply (reach_construct 1%Z); reflexivity).
  assert (E : exec [Acquire; Acquire; Acquire; Release; Release]
                (boot (mkSemaphore 1%Z [])) =
              ({| this := mkSemaphore 0%Z []; promises := 2 |},
               [Granted; Enqueued 0; Enqueued 1; Resumed 0; Resumed 1]))
    by reflexivity.
  split; [exact H|]. split; [exact E|].
  apply (proj2 (proj2 (proj2 (proj2
           (@waiters_resumed_in_arrival_order _ _ _ _ _ _ H E))))
           [Granted] 0 [] 1 [Resumed 0; Resumed 1]
           [Granted; Enqueued 0; Enqueued 1; Resumed 0] []);
    reflexivity.
Defined.

Lemma constructor_rejects_negative_witness :
  ((-1) < 0)%Z /\
  constructor (-1)%Z = inl (Error "Semaphore initial value must be >= 0") /\
  (0 <= 3)%Z /\
  constructor 3%Z = inr (mkSemaphore 3%Z []).
Proof.
  split; [reflexivity|].
  split; [apply (proj1 (constructor_rejects_negative (-1))); reflexivity|].
  split; [discriminate|].
  apply (proj2 (proj2 (constructor_rejects_negative 3))). discriminate.
Defined.

Lemma constructor_accepts_any_number_witness :
  PrimFloat.ltb 0.5 0 = false /\
  constructor 0.5%float = inr (mkSemaphore 0.5%float []) /\
  PrimFloat.ltb (-0.5) 0 = true /\
  constructor (-0.5)%float =
    inl (Error "Semaphore initial value must be >= 0").
Proof.
  split; [reflexivity|].
  split; [apply (proj1 (constructor_accepts_any_number 0.5)); reflexivity|].
  split; [reflexivity|].
  apply (proj1 (proj2 (constructor_accepts_any_number (-0.5)))). reflexivity.
Defined.

Lemma locked_iff_acquire_would_wait_witness :
  locked (mkSemaphore 0%Z []) = true /\
  locked (mkSemaphore 5%Z [7]) = true /\
  snd (acquire 8 (mkSemaphore 5%Z [7])) = Suspended 8.
Proof.
  split.
  { apply (proj1 (locked_iff_acquire_would_wait (mkSemaphore 0%Z []))).
    left. reflexivity. }
  assert (H : locked (mkSemaphore 5%Z [7]) = true).
  { apply (proj1 (locked_iff_acquire_would_wait (mkSemaphore 5%Z [7]))).
    right. discriminate. }
  split; [exact H|].
  apply (proj1 (proj2 (locked_iff_acquire_would_wait (mkSemaphore 5%Z [7])))).
  exact H.
Defined.

(** * Further properties *)

(** ** Capacity and counting, on unbounded integers *)

Lemma exec_acquire_locked k ws p :
  exec (repeat Acquire k) {| this := mkSemaphore 0%Z ws; promises := p |} =
    ({| this := mkSemaphore 0%Z (ws ++ seq p k); promises := p + k |},
     map Enqueued (seq p k)).
Proof.
  revert ws p. induction k as [|k IH]; intros ws p; cbn [repeat exec seq map].
  - rewrite app_nil_r, Nat.add_0_r. reflexivity.
  - replace (step Acquire {| this := mkSemaphore 0%Z ws; promises := p |})
      with ({| this := mkSemaphore 0%Z (ws ++ [p]); promises := S p |},
            Enqueued p) by reflexivity.
    rewrite IH, <- app_assoc, Nat.add_succ_r. reflexivity.
Qed.

Lemma exec_acquire_free n p :
  exec (repeat Acquire n)
    {| this := mkSemaphore (Z.of_nat n) []; promises := p |} =
    ({| this := mkSemaphore 0%Z []; promises := p |}, repeat Granted n).
Proof.
  induction n as [|n IH]; cbn [repeat exec]; [reflexivity|].
  assert (E : step Acquire
                {| this := mkSemaphore (Z.of_nat (S n)) []; promises := p |} =
              ({| this := mkSemaphore (Z.of_nat n) []; promises := p |},
               Granted)).
  { cbn [step]. unfold acquire_call. cbn [this promises].
    rewrite acquire_fast by (apply unlocked_Z; cbn [_value _waiters]; split;
      [lia | reflexivity]).
    cbn [_value _waiters sub one Z_Number]. do 3 f_equal. lia. }
  rewrite E, IH. reflexivity.
Qed.

Lemma exec_release_free r v p :
  exec (repeat Release r) {| this := mkSemaphore v []; promises := p |} =
    ({| this := mkSemaphore (v + Z.of_nat r)%Z []; promises := p |},
     repeat Deposited r).
Proof.
  revert v. induction r as [|r IH]; intros v; cbn [repeat exec].
  - rewrite Z.add_0_r. reflexivity.
  - replace (step Release {| this := mkSemaphore v []; promises := p |})
      with ({| this := mkSemaphore (v + 1)%Z []; promises := p |}, Deposited)
      by reflexivity.
    rewrite IH. do 3 f_equal. lia.
Qed.

Lemma capacity_then_queue_Z (n k p : nat) :
  constructor (Z.of_nat n) = inr (mkSemaphore (Z.of_nat n) []) /\
  exec (repeat Acquire (n + k))
    {| this := mkSemaphore (Z.of_nat n) []; promises := p |} =
    ({| this := mkSemaphore 0%Z (seq p k); promises := p + k |},
     repeat Granted n ++ map Enqueued (seq p k)).
Proof.
  split.
  - unfold constructor. cbn [lt zero Z_Number].
    destruct (Z.ltb_spec (Z.of_nat n) 0); [lia | reflexivity].
  - rewrite repeat_app, exec_app, exec_acquire_free, exec_acquire_locked.
    reflexivity.
Qed.

Lemma over_release_adds_capacity_Z (n r k : nat) :
  exec (repeat Release r ++ repeat Acquire (n + r + k))
    (boot (mkSemaphore (Z.of_nat n) [])) =
    ({| this := mkSemaphore 0%Z (seq 0 k); promises := k |},
     repeat Deposited r ++ repeat Granted (n + r) ++ map Enqueued (seq 0 k)).
Proof.
  rewrite exec_app. unfold boot. rewrite exec_release_free.
  rewrite <- Nat2Z.inj_add, repeat_app, exec_app, exec_acquire_free.
  rewrite exec_acquire_locked. reflexivity.
Qed.

Lemma exec_grants ops (w : World Z) :
  (_value (this (fst (exec ops w))) =
   _value (this w) - Z.of_nat (grants (snd (exec ops w)))
     + Z.of_nat (releases ops))%Z.
Proof.
  revert w. induction ops as [|o ops IH]; intros w; cbn [exec].
  - cbn. lia.
  - destruct (step o w) as [w1 e] eqn:Hs. specialize (IH w1).
    destruct (exec ops w1) as [w2 es]. cbn [fst snd] in *. rewrite IH.
    clear IH. destruct o; cbn in Hs.
    + inversion Hs; subst. cbn. lia.
    + unfold acquire_call in Hs. destruct (locked (this w)) eqn:Hl.
      * rewrite (acquire_slow _ _ Hl) in Hs. inversion Hs; subst.
        cbn [this _value grants releases]. lia.
      * rewrite (acquire_fast _ _ Hl) in Hs. inversion Hs; subst.
        cbn [this _value grants releases sub one Z_Number]. lia.
    + unfold release_call in Hs.
      destruct (_waiters (this w)) as [|x rest] eqn:Hq.
      * rewrite (release_empty _ Hq) in Hs. inversion Hs; subst.
        cbn [this _value grants releases add one Z_Number]. lia.
      * rewrite (release_head _ Hq) in Hs. inversion Hs; subst.
        cbn [this _value grants releases add sub one Z_Number]. lia.
Qed.

Lemma constructed_Z (n : Z) (s : Semaphore Z) :
  constructor n = inr s -> (0 <= n)%Z /\ s = mkSemaphore n [].
Proof.
  unfold constructor. cbn [lt zero Z_Number].
  destruct (Z.ltb_spec n 0) as [Hlt|Hge]; intros H; inversion H.
  split; [lia | reflexivity].
Qed.

Lemma state_by_counts_Z (n : Z) (s : Semaphore Z) (ops : list op) :
  constructor n = inr s ->
  _value (this (fst (exec ops (boot s)))) = Z.max 0 (n - outstanding ops) /\
  Z.of_nat (length (_waiters (this (fst (exec ops (boot s)))))) =
    Z.max 0 (outstanding ops - n).
Proof.
  intros Hc. pose proof (exec_balance ops (boot s)) as Hb. cbn zeta in Hb.
  assert (Hi : invariant (fst (exec ops (boot s)))).
  { apply reachable_invariant, reachable_exec, (reach_construct n Hc). }
  destruct Hi as [Hv Hw]. apply constructed_Z in Hc as [Hn ->].
  cbn [boot this _value _waiters length] in Hb.
  destruct (_waiters (this (fst (exec ops (boot (mkSemaphore n []))))))
    as [|x rest] eqn:E.
  - cbn [length] in *. lia.
  - rewrite Hw in * by discriminate. cbn [length] in *. lia.
Qed.

Lemma permits_out_bounded_Z
  (n : Z) (s : Semaphore Z) (ops : list op) (w' : World Z) (es : list event) :
  constructor n = inr s -> exec ops (boot s) = (w', es) ->
  (Z.of_nat (grants es) + _value (this w') = n + Z.of_nat (releases ops))%Z /\
  (Z.of_nat (grants es) <= n + Z.of_nat (releases ops))%Z.
Proof.
  intros Hc He. pose proof (exec_grants ops (boot s)) as Hg.
  assert (Hi : invariant (fst (exec ops (boot s)))).
  { apply reachable_invariant, reachable_exec, (reach_construct n Hc). }
  rewrite He in Hg, Hi. cbn [fst snd] in Hg, Hi. destruct Hi as [Hv _].
  apply constructed_Z in Hc as [_ ->]. cbn [boot this _value] in Hg. lia.
Qed.

Lemma release_is_never_lost_Z (w : World Z) :
  reachable w ->
  (exists h rest,
     _waiters (this w) = h :: rest /\
     step Release w =
       ({| this := mkSemaphore 0%Z rest; promises := promises w |},
        Resumed h)) \/
  (_waiters (this w) = [] /\
   snd (step Release w) = Deposited /\
   locked (this (fst (step Release w))) = false /\
   snd (step Acquire (fst (step Release w))) = Granted).
Proof.
  intros Hr. destruct (reachable_invariant Hr) as [Hv Hw].
  destruct (_waiters (this w)) as [|h rest] eqn:Hq.
  - right. split; [reflexivity|]. cbn [step]. unfold release_call.
    rewrite (release_empty _ Hq). cbn [fst snd this promises].
    assert (Hl : locked (mkSemaphore (add (_value (this w)) one) []) = false).
    { apply unlocked_Z. cbn [_value _waiters add one Z_Number].
      split; [lia | reflexivity]. }
    split; [reflexivity|]. split; [exact Hl|].
    unfold acquire_call. cbn [this]. rewrite (acquire_fast _ _ Hl).
    reflexivity.
  - left. exists h, rest. split; [reflexivity|]. cbn [step].
    unfold release_call. rewrite (release_head _ Hq).
    rewrite Hw by discriminate. reflexivity.
Qed.

(** ** Counters that are no counts *)

(** X6.  The constructor lets through every double that is not below 0,
    among them values on which [-= 1] and [+= 1] have no effect and which
    are not [=== 0]: [NaN], [Infinity], and every double so large that
    adding or taking 1 gives it back.  A semaphore made from such a value
    gates nothing:
    whatever is called, the object stays as constructed, no call of
    [acquire] ever waits and [locked()] always answers [false]. *)
Theorem unbounded_count_never_blocks (x : float) (ops : list op) :
  PrimFloat.ltb x 0 = false -> PrimFloat.eqb x 0 = false ->
  PrimFloat.sub x 1 = x -> PrimFloat.add x 1 = x ->
  constructor x = inr (mkSemaphore x []) /\
  fst (exec ops (boot (mkSemaphore x []))) = boot (mkSemaphore x []) /\
  never_waits (snd (exec ops (boot (mkSemaphore x [])))).
Proof.
  intros Hlt Heq Hsub Hadd. split.
  { unfold constructor. cbn [lt zero float_Number]. rewrite Hlt. reflexivity. }
  assert (Hl : locked (mkSemaphore x []) = false).
  { unfold locked. cbn [strict_eq zero float_Number _value _waiters length].
    rewrite Heq. reflexivity. }
  assert (Hstep : forall o,
    fst (step o (boot (mkSemaphore x []))) = boot (mkSemaphore x []) /\
    (snd (step o (boot (mkSemaphore x []))) = Granted \/
     snd (step o (boot (mkSemaphore x []))) = Deposited \/
     snd (step o (boot (mkSemaphore x []))) = Queried false)).
  { intros [| |]; cbn [step].
    - cbn [fst snd boot this]. rewrite Hl. auto.
    - unfold acquire_call. cbn [boot this promises].
      rewrite (acquire_fast _ _ Hl).
      cbn [_value _waiters sub one float_Number fst snd]. rewrite Hsub. auto.
    - unfold release_call. cbn [boot this promises].
      rewrite (release_empty (mkSemaphore x []) eq_refl).
      cbn [_value add one float_Number fst snd]. rewrite Hadd. auto. }
  induction ops as [|o ops [IH1 IH2]]; cbn [exec].
  - split; [reflexivity | constructor].
  - destruct (Hstep o) as [H1 H2].
    destruct (step o (boot (mkSemaphore x []))) as [w1 e].
    cbn [fst snd] in H1, H2. subst w1.
    destruct (exec ops (boot (mkSemaphore x []))) as [w2 es].
    cbn [fst snd] in *. split; [exact IH1 | constructor; assumption].
Qed.

(** ** Calls of [locked] *)

(** X7.  Calls of [locked] can be put anywhere among the other calls, or
    left out, without any effect on them: the schedule without its calls of
    [locked] ends in the same state and shows the same events, the answers
    apart. *)
Theorem locked_calls_are_transparent
  (num : Type) (N : Number num) (ops : list op) (w : World num) :
  exec (without_queries ops) w =
    (fst (exec ops w), without_answers (snd (exec ops w))).
Proof.
  revert w. induction ops as [|o ops IH]; intros w; [reflexivity|].
  cbn [exec]. destruct (step o w) as [w1 e] eqn:Hs. specialize (IH w1).
  destruct (exec ops w1) as [w2 es]. cbn [fst snd] in *.
  destruct o; cbn [without_queries filter is_query negb].
  - cbn in Hs. inversion Hs; subst. exact IH.
  - cbn [exec]. rewrite Hs.
    change (filter (fun o => negb (is_query o)) ops)
      with (without_queries ops).
    rewrite IH. cbn in Hs. destruct (acquire_call w) as [u [|h]];
      inversion Hs; subst; reflexivity.
  - cbn [exec]. rewrite Hs.
    change (filter (fun o => negb (is_query o)) ops)
      with (without_queries ops).
    rewrite IH. cbn in Hs. destruct (release_call w) as [u [h|]];
      inversion Hs; subst; reflexivity.
Qed.

(** ** When [run] starts its task *)

(** X8.  In a reachable state, a call of [run] on an unlocked semaphore
    always gets to its task.  On a locked one, with [k] waiters ahead of
    it, it is still waiting at its [acquire] exactly as long as the calls
    of [release] made since are at most [k]: the task starts after the
    [release] number [k + 1] and not before. *)
Theorem run_starts_after_enough_releases
  (num : Type) (N : Number num) (T : Type)
  (before during : list op) (r : settled T) (w : World num) :
  reachable w ->
  (locked (this w) = false -> run before during r w <> None) /\
  (locked (this w) = true ->
     (run before during r w = None <->
      releases before <= length (_waiters (this w)))).
Proof.
  intros Hr. unfold run, run_acquire, run_task, run_finally. split.
  - intros Hl. unfold acquire_call. rewrite (acquire_fast _ _ Hl).
    destruct (exec before _) as [w2 es]. cbn [granted].
    destruct (exec during w2) as [w4 es']. destruct (release_call w4).
    discriminate.
  - intros Hl.
    destruct (enqueued_until_released before Hr Hl) as (Hs & _ & Hin).
    rewrite Hs in Hin. cbn [fst] in Hin.
    unfold acquire_call. rewrite (acquire_slow _ _ Hl).
    destruct (exec before _) as [w2 es]. cbn [snd] in Hin. cbn [granted].
    rewrite <- resumes_In in Hin.
    destruct (existsb (Nat.eqb (promises w)) (resumes es)) eqn:Hg.
    + destruct (exec during w2) as [w4 es']. destruct (release_call w4).
      split; [discriminate|]. intros Hle. exfalso.
      apply existsb_exists in Hg as (y & Hy & Hyy).
      apply Nat.eqb_eq in Hyy. subst y. apply Hin in Hy. lia.
    + split; [intros _ | reflexivity].
      destruct (Nat.le_gt_cases (releases before)
                  (length (_waiters (this w)))) as [|Hgt]; [assumption|].
      apply Hin in Hgt.
      assert (existsb (Nat.eqb (promises w)) (resumes es) = true).
      { apply existsb_exists. exists (promises w).
        split; [assumption | apply Nat.eqb_refl]. }
      congruence.
Qed.

(** ** The further properties at work *)

Lemma unbounded_count_never_blocks_witness :
  (PrimFloat.ltb nan 0 = false /\ PrimFloat.eqb nan 0 = false /\
   PrimFloat.sub nan 1 = nan /\ PrimFloat.add nan 1 = nan) /\
  never_waits
    (snd (exec [Acquire; Locked; Acquire; Release; Acquire]
            (boot (mkSemaphore nan [])))) /\
  never_waits
    (snd (exec [Acquire; Locked; Acquire; Release; Acquire]
            (boot (mkSemaphore infinity [])))) /\
  never_waits
    (snd (exec [Acquire; Locked; Acquire; Release; Acquire]
            (boot (mkSemaphore 18014398509481984%float [])))).
Proof.
  split; [repeat split|]. split; [|split].
  - exact (proj2 (proj2 (@unbounded_count_never_blocks nan
             [Acquire; Locked; Acquire; Release; Acquire]
             eq_refl eq_refl eq_refl eq_refl))).
  - exact (proj2 (proj2 (@unbounded_count_never_blocks infinity
             [Acquire; Locked; Acquire; Release; Acquire]
             eq_refl eq_refl eq_refl eq_refl))).
  - exact (proj2 (proj2 (@unbounded_count_never_blocks
             18014398509481984%float
             [Acquire; Locked; Acquire; Release; Acquire]
             eq_refl eq_refl eq_refl eq_refl))).
Defined.

Lemma run_starts_after_enough_releases_witness :
  reachable (fst (exec [Acquire] (boot (mkSemaphore 0%Z [])))) /\
  locked (this (fst (exec [Acquire] (boot (mkSemaphore 0%Z []))))) = true /\
  run [Release; Acquire] [] (Fulfilled 7)
    (fst (exec [Acquire] (boot (mkSemaphore 0%Z [])))) = None /\
  run [Release; Acquire; Release] [] (Fulfilled 7)
    (fst (exec [Acquire] (boot (mkSemaphore 0%Z [])))) <> None.
Proof.
  assert (H : reachable (fst (exec [Acquire] (boot (mkSemaphore 0%Z []))))).
  { apply reachable_exec. apply (reach_construct 0%Z). reflexivity. }
  split; [exact H|]. split; [reflexivity|]. split.
  - apply (proj2 (@run_starts_after_enough_releases Z _ nat
                    [Release; Acquire] [] (Fulfilled 7) _ H) eq_refl).
    apply le_n.
  - intros E.
    apply (proj2 (@run_starts_after_enough_releases Z _ nat
                    [Release; Acquire; Release] [] (Fulfilled 7) _ H) eq_refl)
      in E.
    exact (Nat.nle_succ_diag_l _ E).
Defined.


(** * Integer counts on the double counter *)

(** ** Doubles hold the integers up to 2^53 - 1 exactly *)

Lemma digits2_bounds p :
  (2 ^ (Zpos (digits2_pos p) - 1) <= Zpos p < 2 ^ Zpos (digits2_pos p))%Z.
Proof.
  induction p as [p IH|p IH|]; cbn [digits2_pos].
  - rewrite Pos2Z.inj_succ.
    replace (Z.succ (Zpos (digits2_pos p)) - 1)%Z with (Z.succ (Zpos (digits2_pos p) - 1))%Z by lia.
    rewrite !Z.pow_succ_r by lia. lia.
  - rewrite Pos2Z.inj_succ.
    replace (Z.succ (Zpos (digits2_pos p)) - 1)%Z with (Z.succ (Zpos (digits2_pos p) - 1))%Z by lia.
    rewrite !Z.pow_succ_r by lia. lia.
  - cbn. lia.
Qed.

Lemma digits2_safe p : (Zpos p <= max_safe)%Z -> (Zpos (digits2_pos p) <= 53)%Z.
Proof.
  intros H. destruct (digits2_bounds p) as [Hlo _].
  destruct (Z.le_gt_cases (Zpos (digits2_pos p)) 53) as [|Hgt]; [assumption|].
  assert (2 ^ 53 <= 2 ^ (Zpos (digits2_pos p) - 1))%Z by (apply Z.pow_le_mono_r; lia).
  unfold max_safe in H. change (2 ^ 53)%Z with 9007199254740992%Z in *. lia.
Qed.

Lemma digits2_shl k p :
  Zpos (digits2_pos (shl k p)) = (Zpos (digits2_pos p) + Z.of_nat k)%Z.
Proof.
  induction k as [|k IH]; [cbn; lia|].
  change (shl (S k) p) with (xO (shl k p)). cbn [digits2_pos].
  rewrite Pos2Z.inj_succ, IH. lia.
Qed.

Lemma Zpos_shl k p : Zpos (shl k p) = (Zpos p * 2 ^ Z.of_nat k)%Z.
Proof.
  induction k as [|k IH]; [cbn; lia|].
  change (shl (S k) p) with (xO (shl k p)).
  rewrite Pos2Z.inj_xO, IH, Nat2Z.inj_succ, Z.pow_succ_r by lia. lia.
Qed.

Lemma shl_shl j k p : shl j (shl k p) = shl (j + k) p.
Proof. unfold shl. symmetry. apply Nat.iter_add. Qed.

Lemma iter_pos_nat (A : Type) (f : A -> A) n x :
  iter_pos f n x = Nat.iter (Pos.to_nat n) f x.
Proof.
  revert x. induction n as [n IH|n IH|]; intros x; cbn [iter_pos].
  - rewrite !IH, Pos2Nat.inj_xI.
    replace (S (2 * Pos.to_nat n)) with (Pos.to_nat n + (Pos.to_nat n + 1)) by lia.
    rewrite !Nat.iter_add. reflexivity.
  - rewrite !IH, Pos2Nat.inj_xO.
    replace (2 * Pos.to_nat n) with (Pos.to_nat n + Pos.to_nat n) by lia.
    rewrite Nat.iter_add. reflexivity.
  - reflexivity.
Qed.

Lemma shr_exact k j q :
  Nat.iter k shr_1 {| shr_m := Zpos (shl (k + j) q); shr_r := false; shr_s := false |} =
  {| shr_m := Zpos (shl j q); shr_r := false; shr_s := false |}.
Proof.
  revert j. induction k as [|k IH]; intros j; [reflexivity|].
  rewrite Nat.iter_succ. replace (S k + j) with (k + S j) by lia. rewrite IH.
  reflexivity.
Qed.

Lemma fexp_normal x : (-1021 <= x)%Z -> fexp prec emax x = (x - 53)%Z.
Proof. unfold fexp, emin, prec, emax. lia. Qed.

Lemma round_aux_exact q k e :
  (Zpos (digits2_pos q) <= 53)%Z ->
  (53 <= Zpos (digits2_pos q) + Z.of_nat k)%Z ->
  (-1074 <= e + (Zpos (digits2_pos q) + Z.of_nat k - 53) <= 971)%Z ->
  binary_round_aux prec emax false (Zpos (shl k q)) e loc_Exact =
    S754_finite false (shl (Z.to_nat (53 - Zpos (digits2_pos q))) q)
      (e + (Zpos (digits2_pos q) + Z.of_nat k - 53)).
Proof.
  intros HD Hk He. set (D := Zpos (digits2_pos q)) in *.
  set (n := (D + Z.of_nat k - 53)%Z) in *.
  set (j := Z.to_nat (53 - D)).
  assert (Hkj : k = Z.to_nat n + j) by (subst n j; lia).
  unfold binary_round_aux, shr_fexp. cbn [Zdigits2 shr_record_of_loc].
  rewrite digits2_shl. fold D.
  rewrite fexp_normal by lia.
  replace (D + Z.of_nat k + e - 53 - e)%Z with n by (subst n; lia).
  assert (Hshr : shr {| shr_m := Zpos (shl k q); shr_r := false; shr_s := false |} e n =
                 ({| shr_m := Zpos (shl j q); shr_r := false; shr_s := false |}, (e + n)%Z)).
  { unfold shr. destruct n as [|pn|pn] eqn:En.
    - cbn in Hkj. subst k. rewrite Z.add_0_r. reflexivity.
    - rewrite iter_pos_nat. rewrite Hkj. rewrite Z2Nat.inj_pos. rewrite shr_exact. reflexivity.
    - subst n. lia. }
  rewrite Hshr. cbn [shr_m loc_of_shr_record round_nearest_even Zdigits2 shr_record_of_loc].
  rewrite digits2_shl. fold D.
  replace (D + Z.of_nat j + (e + n))%Z with (53 + (e + n))%Z by (subst j; lia).
  rewrite fexp_normal by lia.
  replace (53 + (e + n) - 53 - (e + n))%Z with 0%Z by lia.
  cbn [shr shr_m]. 
  replace (e + n <=? emax - prec)%Z with true; [reflexivity|].
  symmetry. apply Z.leb_le. unfold emax, prec. lia.
Qed.

Lemma Pos_iter_shl d m : Pos.iter xO m d = shl (Pos.to_nat d) m.
Proof. unfold shl. apply Pos2Nat.inj_iter. Qed.

Lemma round_exact q k :
  (Zpos (digits2_pos q) <= 53)%Z ->
  binary_round prec emax false (shl k q) (- Z.of_nat k) = canon q.
Proof.
  intros HD. unfold binary_round. rewrite digits2_shl.
  set (D := Zpos (digits2_pos q)) in *.
  assert (HD1 : (1 <= D)%Z) by (subst D; lia).
  replace (D + Z.of_nat k + - Z.of_nat k)%Z with D by lia.
  rewrite fexp_normal by lia. unfold shl_align.
  destruct (D - 53 - - Z.of_nat k)%Z as [|d|d] eqn:Ed.
  - rewrite round_aux_exact by (fold D; lia). fold D. unfold canon. fold D.
    f_equal. lia.
  - rewrite round_aux_exact by (fold D; lia). fold D. unfold canon. fold D.
    f_equal. lia.
  - rewrite Pos_iter_shl, shl_shl.
    rewrite round_aux_exact by (fold D; lia). fold D. unfold canon. fold D.
    f_equal. lia.
Qed.

Lemma canon_valid q :
  (Zpos (digits2_pos q) <= 53)%Z -> valid_binary (canon q) = true.
Proof.
  intros HD. unfold canon. cbn [SpecFloat.valid_binary]. unfold bounded, canonical_mantissa.
  rewrite digits2_shl. set (D := Zpos (digits2_pos q)) in *.
  assert (HD1 : (1 <= D)%Z) by (subst D; lia).
  rewrite fexp_normal by lia. apply andb_true_intro. split.
  - apply Z.eqb_eq. lia.
  - apply Z.leb_le. unfold emax, prec. lia.
Qed.

Lemma aligned q :
  (Zpos (digits2_pos q) <= 53)%Z ->
  fst (shl_align (shl (Z.to_nat (53 - Zpos (digits2_pos q))) q)
         (Zpos (digits2_pos q) - 53) (-52)) = shl 52 q.
Proof.
  intros HD. set (D := Zpos (digits2_pos q)) in *.
  assert (HD1 : (1 <= D)%Z) by (subst D; lia).
  unfold shl_align. destruct (-52 - (D - 53))%Z as [|d|d] eqn:Ed; cbn [fst].
  - f_equal. lia.
  - lia.
  - rewrite Pos_iter_shl, shl_shl. f_equal. lia.
Qed.

Lemma shl_add k p q : (shl k p + shl k q)%positive = shl k (p + q).
Proof.
  apply Pos2Z.inj. rewrite Pos2Z.inj_add, !Zpos_shl, Pos2Z.inj_add. lia.
Qed.

Lemma canon_1 : canon 1 = S754_finite false (shl 52 1) (-52).
Proof. reflexivity. Qed.

Lemma SFadd_one q :
  (Zpos (digits2_pos q) <= 53)%Z -> (Zpos (digits2_pos (q + 1)) <= 53)%Z ->
  SFadd prec emax (canon q) (canon 1) = canon (q + 1).
Proof.
  intros HD HD'. rewrite canon_1. unfold canon at 1. unfold SFadd.
  set (D := Zpos (digits2_pos q)) in *.
  assert (HD1 : (1 <= D)%Z) by (subst D; lia).
  replace (Z.min (D - 53) (-52)) with (-52)%Z by lia.
  subst D. rewrite aligned by assumption.
  replace (fst (shl_align (shl 52 1) (-52) (-52))) with (shl 52 1) by reflexivity.
  cbn [cond_Zopp Z.add binary_normalize]. rewrite shl_add.
  apply (@round_exact (q + 1) 52 HD').
Qed.

Lemma SFsub_one q :
  (Zpos (digits2_pos q) <= 53)%Z -> (Zpos (digits2_pos (q + 1)) <= 53)%Z ->
  SFsub prec emax (canon (q + 1)) (canon 1) = canon q.
Proof.
  intros HD HD'. rewrite canon_1. unfold canon at 1. unfold SFsub.
  set (D := Zpos (digits2_pos (q + 1))) in *.
  assert (HD1 : (1 <= D)%Z) by (subst D; lia).
  replace (Z.min (D - 53) (-52)) with (-52)%Z by lia.
  subst D. rewrite aligned by assumption.
  replace (fst (shl_align (shl 52 1) (-52) (-52))) with (shl 52 1) by reflexivity.
  cbn [cond_Zopp].
  replace (Zpos (shl 52 (q + 1)) - Zpos (shl 52 1))%Z with (Zpos (shl 52 q)).
  - apply (@round_exact q 52 HD).
  - rewrite <- shl_add. lia.
Qed.

Lemma SFsub_one_one : SFsub prec emax (canon 1) (canon 1) = S754_zero false.
Proof. reflexivity. Qed.

Lemma Prim2SF_one : Prim2SF 1%float = canon 1.
Proof. vm_compute. reflexivity. Qed.

Lemma Prim2SF_zero : Prim2SF 0%float = S754_zero false.
Proof. vm_compute. reflexivity. Qed.

Lemma double_of_0 : double_of 0 = 0%float.
Proof. reflexivity. Qed.

Lemma Prim2SF_double_of p :
  (Zpos p <= max_safe)%Z -> Prim2SF (double_of (Zpos p)) = canon p.
Proof.
  intros H. apply digits2_safe in H. unfold double_of. cbn [binary_normalize].
  change (binary_round prec emax false p 0)
    with (binary_round prec emax false (shl 0 p) (- Z.of_nat 0)).
  rewrite (@round_exact p 0 H). apply Prim2SF_SF2Prim, canon_valid, H.
Qed.

Lemma double_of_succ z :
  (0 <= z < max_safe)%Z -> (double_of z + 1)%float = double_of (z + 1).
Proof.
  intros Hz. apply Prim2SF_inj. rewrite add_spec, Prim2SF_one.
  destruct z as [|p|p]; [| |lia].
  - rewrite double_of_0, Prim2SF_zero. change (0 + 1)%Z with 1%Z.
    rewrite (@Prim2SF_double_of 1%positive) by (unfold max_safe; lia). reflexivity.
  - rewrite Prim2SF_double_of by lia.
    replace (Zpos p + 1)%Z with (Zpos (p + 1)) by lia.
    rewrite Prim2SF_double_of by lia.
    apply SFadd_one; apply digits2_safe; lia.
Qed.

Lemma double_of_pred z :
  (0 < z <= max_safe)%Z -> (double_of z - 1)%float = double_of (z - 1).
Proof.
  intros Hz. apply Prim2SF_inj. rewrite sub_spec, Prim2SF_one.
  destruct z as [|p|p]; [lia| |lia].
  rewrite Prim2SF_double_of by lia.
  destruct (Pos.eq_dec p 1) as [->|Hp].
  - reflexivity.
  - replace (Zpos p - 1)%Z with (Zpos (p - 1)) by lia.
    rewrite Prim2SF_double_of by lia.
    replace p with (p - 1 + 1)%positive at 1 by lia.
    apply SFsub_one; apply digits2_safe; lia.
Qed.

Lemma double_of_eq0 z :
  (0 <= z <= max_safe)%Z -> (double_of z =? 0)%float = (z =? 0)%Z.
Proof.
  intros Hz. rewrite eqb_spec, Prim2SF_zero.
  destruct z as [|p|p]; [reflexivity| |lia].
  rewrite Prim2SF_double_of by lia. reflexivity.
Qed.

Lemma double_of_lt0 z :
  (0 <= z <= max_safe)%Z -> (double_of z <? 0)%float = false.
Proof.
  intros Hz. rewrite ltb_spec, Prim2SF_zero.
  destruct z as [|p|p]; [reflexivity| |lia].
  rewrite Prim2SF_double_of by lia. reflexivity.
Qed.

Lemma integer_of_double_of z :
  (0 <= z <= max_safe)%Z -> integer_of (double_of z) = Some z.
Proof.
  intros Hz. unfold integer_of. destruct z as [|p|p]; [reflexivity| |lia].
  rewrite Prim2SF_double_of by lia. unfold canon.
  assert (HD : (Zpos (digits2_pos p) <= 53)%Z) by (apply digits2_safe; lia).
  set (D := Zpos (digits2_pos p)) in *.
  assert (HD1 : (1 <= D)%Z) by (subst D; lia).
  rewrite Zpos_shl, Z2Nat.id by lia. cbn [cond_Zopp].
  destruct (Z.leb_spec 0 (D - 53)).
  - replace (53 - D)%Z with 0%Z by lia. replace (D - 53)%Z with 0%Z by lia.
    f_equal. cbn. lia.
  - replace (- (D - 53))%Z with (53 - D)%Z by lia.
    rewrite Z.mod_mul by (apply Z.pow_nonzero; lia). cbn [Z.eqb].
    rewrite Z.div_mul by (apply Z.pow_nonzero; lia). reflexivity.
Qed.

(** ** The object on doubles follows the object on integers *)

Lemma locked_as_double (s : Semaphore Z) :
  (0 <= _value s <= max_safe)%Z -> locked (as_double s) = locked s.
Proof.
  intros H. unfold locked, as_double.
  cbn [_value _waiters strict_eq zero float_Number Z_Number].
  rewrite double_of_eq0 by assumption. reflexivity.
Qed.

Lemma step_as_doubles o (w : World Z) :
  invariant w ->
  (_value (this w) <= max_safe)%Z ->
  (_value (this (fst (step o w))) <= max_safe)%Z ->
  step o (as_doubles w) = (as_doubles (fst (step o w)), snd (step o w)).
Proof.
  intros [Hv Hw] Hmax Hnext.
  assert (Hl : locked (as_double (this w)) = locked (this w))
    by (apply locked_as_double; lia).
  destruct w as [[v ws] p]. cbn [this _value _waiters promises] in *.
  destruct o; cbn [step].
  - cbn [as_doubles this fst snd]. rewrite Hl. reflexivity.
  - unfold acquire_call. cbn [as_doubles this promises].
    destruct (locked (mkSemaphore v ws)) eqn:E.
    + rewrite (acquire_slow _ _ Hl), (acquire_slow _ _ E). reflexivity.
    + rewrite (acquire_fast _ _ Hl), (acquire_fast _ _ E).
      apply unlocked_Z in E as [Hn _]. cbn [_value] in Hn.
      cbn [as_double _value _waiters sub one float_Number Z_Number fst snd
           as_doubles this promises].
      rewrite double_of_pred by lia. reflexivity.
  - unfold release_call. cbn [as_doubles this promises].
    destruct ws as [|x rest].
    + rewrite (release_empty (as_double (mkSemaphore v [])) eq_refl).
      rewrite (release_empty (mkSemaphore v []) eq_refl).
      cbn [step] in Hnext. unfold release_call in Hnext.
      cbn [this promises] in Hnext.
      rewrite (release_empty (mkSemaphore v []) eq_refl) in Hnext.
      cbn [fst snd this _value add one Z_Number] in Hnext.
      cbn [as_double _value _waiters add one float_Number Z_Number fst snd
           as_doubles this promises].
      rewrite double_of_succ by lia. reflexivity.
    + rewrite (release_head (as_double (mkSemaphore v (x :: rest))) eq_refl).
      rewrite (release_head (mkSemaphore v (x :: rest)) eq_refl).
      rewrite Hw by discriminate.
      cbn [as_double _value _waiters add sub one float_Number Z_Number
           fst snd as_doubles this promises].
      rewrite double_of_succ by (unfold max_safe; lia).
      rewrite double_of_pred by (unfold max_safe; lia). reflexivity.
Qed.

Lemma safe_now ops (w : World Z) :
  safe ops w = true -> (_value (this w) <= max_safe)%Z.
Proof.
  destruct ops; cbn [safe]; intros H; apply andb_prop in H as [H _];
    apply Z.leb_le; exact H.
Qed.

Lemma exec_as_doubles ops (w : World Z) :
  invariant w -> safe ops w = true ->
  exec ops (as_doubles w) = (as_doubles (fst (exec ops w)), snd (exec ops w)).
Proof.
  revert w. induction ops as [|o ops IH]; intros w Hi Hs; [reflexivity|].
  pose proof (safe_now _ _ Hs) as Hmax. cbn [safe] in Hs.
  apply andb_prop in Hs as [_ Hs]. cbn [exec].
  rewrite (step_as_doubles o Hi Hmax (safe_now _ _ Hs)).
  rewrite (IH _ (step_invariant o Hi) Hs).
  destruct (step o w) as [w1 e]. cbn [fst snd].
  destruct (exec ops w1) as [w2 es]. reflexivity.
Qed.

Lemma step_value_le o (w : World Z) :
  invariant w ->
  (_value (this (fst (step o w))) <=
   _value (this w) + Z.of_nat (releases [o]))%Z.
Proof.
  intros [Hv Hw]. destruct w as [[v ws] p].
  cbn [this _value _waiters] in *. destruct o; cbn [step releases].
  - cbn. lia.
  - unfold acquire_call. cbn [this promises].
    destruct (locked (mkSemaphore v ws)) eqn:E.
    + rewrite (acquire_slow _ _ E). cbn. lia.
    + rewrite (acquire_fast _ _ E). cbn. lia.
  - unfold release_call. cbn [this promises]. destruct ws as [|x rest].
    + rewrite (release_empty (mkSemaphore v []) eq_refl). cbn. lia.
    + rewrite (release_head (mkSemaphore v (x :: rest)) eq_refl). cbn. lia.
Qed.

Lemma safe_releases ops (w : World Z) :
  invariant w ->
  (_value (this w) + Z.of_nat (releases ops) <= max_safe)%Z ->
  safe ops w = true.
Proof.
  revert w. induction ops as [|o ops IH]; intros w Hi H; cbn [safe].
  - cbn in H. apply andb_true_intro. split; [apply Z.leb_le; lia | reflexivity].
  - apply andb_true_intro. split; [apply Z.leb_le; lia|].
    apply IH; [apply step_invariant, Hi|].
    pose proof (step_value_le o Hi) as Hle.
    change (o :: ops) with ([o] ++ ops) in H.
    assert (releases ([o] ++ ops) = releases [o] + releases ops)
      by (destruct o; reflexivity).
    lia.
Qed.

Lemma safe_balanced ops (w : World Z) (held : nat) (n : Z) :
  invariant w -> (0 <= n <= max_safe)%Z ->
  (_value (this w) - Z.of_nat (length (_waiters (this w))) + Z.of_nat held
   = n)%Z ->
  balanced held ops = true -> safe ops w = true.
Proof.
  revert w held. induction ops as [|o ops IH]; intros w held Hi Hn Hb Hbal.
  - cbn [safe]. destruct Hi as [Hv Hw]. apply andb_true_intro.
    split; [|reflexivity]. apply Z.leb_le.
    destruct (_waiters (this w)); [cbn [length] in Hb; lia|].
    rewrite Hw by discriminate. lia.
  - assert (Hnow : (_value (this w) <= max_safe)%Z).
    { destruct Hi as [Hv Hw].
      destruct (_waiters (this w)); [cbn [length] in Hb; lia|].
      rewrite Hw by discriminate. lia. }
    cbn [safe]. apply andb_true_intro. split; [apply Z.leb_le, Hnow|].
    pose proof (step_invariant o Hi) as Hi'.
    pose proof (exec_balance [o] w) as Hstep. cbn zeta in Hstep.
    cbn [exec] in Hstep. destruct (step o w) as [w1 e]. cbn [fst] in *.
    unfold outstanding in Hstep.
    destruct o; cbn [balanced acquires releases] in *.
    + apply (IH w1 held Hi' Hn); [lia | exact Hbal].
    + apply (IH w1 (S held) Hi' Hn); [lia | exact Hbal].
    + destruct held as [|h]; [discriminate|].
      apply (IH w1 h Hi' Hn); [lia | exact Hbal].
Qed.

Lemma balanced_outstanding held ops :
  balanced held ops = true -> (0 <= Z.of_nat held + outstanding ops)%Z.
Proof.
  revert held. unfold outstanding.
  induction ops as [|o ops IH]; intros held H; [cbn; lia|].
  destruct o; cbn [balanced acquires releases] in *.
  - apply IH in H. lia.
  - apply IH in H. lia.
  - destruct held as [|h]; [discriminate|]. apply IH in H. lia.
Qed.

Lemma constructed_double (n : Z) :
  (0 <= n <= max_safe)%Z ->
  constructor (double_of n) = inr (mkSemaphore (double_of n) []).
Proof.
  intros H. unfold constructor. cbn [lt zero float_Number].
  rewrite double_of_lt0 by assumption. reflexivity.
Qed.

Lemma invariant_fresh (n : Z) (p : nat) :
  (0 <= n)%Z -> invariant {| this := mkSemaphore n []; promises := p |}.
Proof. intros H. split; cbn; [assumption | congruence]. Qed.

Lemma reachable_fresh (n : Z) :
  (0 <= n)%Z -> reachable (boot (mkSemaphore n [])).
Proof.
  intros H. apply (reach_construct n). unfold constructor.
  cbn [lt zero Z_Number]. destruct (Z.ltb_spec n 0); [lia | reflexivity].
Qed.

Lemma constructor_fresh (n : Z) :
  (0 <= n)%Z -> constructor n = inr (mkSemaphore n []).
Proof.
  intros H. unfold constructor. cbn [lt zero Z_Number].
  destruct (Z.ltb_spec n 0); [lia | reflexivity].
Qed.

Lemma exec_doubles_fresh (n : Z) (ops : list op) (p : nat) :
  (0 <= n)%Z -> (n + Z.of_nat (releases ops) <= max_safe)%Z ->
  exec ops {| this := mkSemaphore (double_of n) []; promises := p |} =
    (as_doubles
       (fst (exec ops {| this := mkSemaphore n []; promises := p |})),
     snd (exec ops {| this := mkSemaphore n []; promises := p |})).
Proof.
  intros Hn Hr.
  apply (exec_as_doubles ops (invariant_fresh p Hn)).
  apply safe_releases; [apply invariant_fresh, Hn | exact Hr].
Qed.

Lemma releases_app ops1 ops2 :
  releases (ops1 ++ ops2) = releases ops1 + releases ops2.
Proof.
  induction ops1 as [|[] ops1 IH]; cbn [app releases]; rewrite ?IH; reflexivity.
Qed.

Lemma releases_repeat_acquire k : releases (repeat Acquire k) = 0.
Proof. induction k; [reflexivity | exact IHk]. Qed.

Lemma releases_repeat_release k : releases (repeat Release k) = k.
Proof. induction k; [reflexivity | cbn; rewrite IHk; reflexivity]. Qed.

(** * The class on its double counter *)

(** ** Conservation *)

(** C9, as amended.  On a semaphore constructed with an integer count [n]
    from 0 to 2^53 - 1, after any schedule in which no [release] comes
    without a call of [acquire] to match and which has made as many calls
    of [release] as of [acquire], nobody waits and the counter is [n]
    again. *)
Theorem permits_conserved_on_doubles (n : Z) (ops : list op) :
  (0 <= n <= max_safe)%Z ->
  no_over_release ops = true ->
  outstanding ops = 0%Z ->
  constructor (double_of n) = inr (mkSemaphore (double_of n) []) /\
  integer_of (double_of n) = Some n /\
  this (fst (exec ops (boot (mkSemaphore (double_of n) [])))) =
    mkSemaphore (double_of n) [].
Proof.
  intros Hn Hb Ho. split; [apply constructed_double, Hn|].
  split; [apply integer_of_double_of, Hn|].
  assert (Hi : invariant (boot (mkSemaphore n []))) by (apply invariant_fresh; lia).
  assert (Hs : safe ops (boot (mkSemaphore n [])) = true).
  { apply (@safe_balanced ops _ 0 n Hi Hn); [cbn; lia | exact Hb]. }
  change (boot (mkSemaphore (double_of n) []))
    with (as_doubles (boot (mkSemaphore n []))).
  rewrite (exec_as_doubles ops Hi Hs). cbn [fst as_doubles this].
  destruct (@state_by_counts_Z n (mkSemaphore n []) ops
              (constructor_fresh (proj1 Hn))) as [Hv Hw].
  rewrite Ho in Hv, Hw.
  destruct (this (fst (exec ops (boot (mkSemaphore n []))))) as [v ws].
  cbn [_value _waiters] in *. unfold as_double. cbn [_value _waiters].
  destruct ws; [|cbn [length] in Hw; lia]. f_equal. f_equal. lia.
Qed.

(** ** [acquire] and [release] *)

(** C1, as amended.  A call of [acquire] does one of two things.  When
    [locked()] is false it replaces the counter by the double [counter - 1]
    and returns, the queue untouched; that is exactly one less whenever the
    counter is an integer from 1 to 2^53 - 1.  Otherwise it leaves the
    counter as it is, puts a new [resolve] at the tail of the queue and
    suspends; with [k] waiters ahead of it, that [resolve] is called by the
    [release] number [k + 1] that follows, and by none before, whatever
    else is called meanwhile.  Once resumed, [acquire] returns without
    touching the object. *)
Theorem acquire_two_branches_on_doubles :
  (forall (s : Semaphore float) (h : handle),
     (locked s = false ->
        acquire h s =
          ({| _value := (_value s - 1)%float; _waiters := _waiters s |},
           Returned)) /\
     (locked s = true ->
        acquire h s =
          ({| _value := _value s; _waiters := _waiters s ++ [h] |},
           Suspended h)) /\
     acquire_resumed s = s) /\
  (forall (z : Z) (h : handle),
     (1 <= z <= max_safe)%Z ->
     integer_of (double_of z) = Some z /\
     locked (mkSemaphore (double_of z) []) = false /\
     acquire h (mkSemaphore (double_of z) []) =
       (mkSemaphore (double_of (z - 1)) [], Returned) /\
     integer_of (double_of (z - 1)) = Some (z - 1)%Z) /\
  (forall (w : World float) (ops : list op),
     reachable w -> locked (this w) = true ->
     step Acquire w =
       ({| this := {| _value := _value (this w);
                      _waiters := _waiters (this w) ++ [promises w] |};
           promises := S (promises w) |},
        Enqueued (promises w)) /\
     ~ In (promises w) (_waiters (this w)) /\
     (In (Resumed (promises w)) (snd (exec ops (fst (step Acquire w))))
        <-> length (_waiters (this w)) < releases ops)).
Proof.
  split; [|split].
  - intros s h. repeat split.
    + intros H. rewrite (acquire_fast _ _ H). reflexivity.
    + apply acquire_slow.
  - intros z h Hz.
    assert (Hl : locked (mkSemaphore (double_of z) []) = false).
    { change (mkSemaphore (double_of z) []) with (as_double (mkSemaphore z [])).
      rewrite locked_as_double by (cbn; lia). apply unlocked_Z. cbn.
      split; [lia | reflexivity]. }
    split; [apply integer_of_double_of; lia|]. split; [exact Hl|].
    split; [|apply integer_of_double_of; lia].
    rewrite (acquire_fast _ _ Hl). cbn [_value _waiters sub one float_Number].
    rewrite double_of_pred by lia. reflexivity.
  - intros w ops. apply enqueued_until_released.
Qed.

Lemma release_many_doubles (n : nat) (z : Z) (ws : list handle) :
  (0 <= z)%Z -> (z + Z.of_nat n <= max_safe)%Z ->
  release_many n (mkSemaphore (double_of z) ws) =
    (mkSemaphore (double_of (z + Z.of_nat (n - length ws))) (skipn n ws),
     firstn n ws).
Proof.
  revert z ws. induction n as [|n IH]; intros z ws Hz Hn; cbn [release_many].
  - cbn. rewrite Z.add_0_r. reflexivity.
  - destruct ws as [|x rest].
    + rewrite (release_empty (mkSemaphore (double_of z) []) eq_refl).
      cbn [_value add one float_Number].
      rewrite double_of_succ, IH by lia. cbn [length skipn firstn].
      rewrite skipn_nil, firstn_nil. do 3 f_equal. lia.
    + rewrite (release_head (mkSemaphore (double_of z) (x :: rest)) eq_refl).
      cbn [_value add sub one float_Number].
      rewrite double_of_succ, double_of_pred by lia.
      replace (z + 1 - 1)%Z with z by lia.
      rewrite IH by lia. cbn [length skipn firstn]. do 3 f_equal.
Qed.

(** C2, as amended.  [release()] replaces the counter by the double
    [counter + 1] and then runs [_wakeUpNext].  When the counter is an
    integer from 0 to 2^53 - 2: with a waiter queued, the head alone leaves
    the queue, the counter goes down by 1 again (so it ends where it
    started) and that head's [resolve] is called; with none, the counter
    stays exactly one higher and nothing is called.  The call always
    returns: as long as the counter stays at most 2^53 - 1, [n] calls in a
    row wake the first [n] waiters, in order, and add to the counter one
    for each call that found the queue empty. *)
Theorem release_wakes_at_most_one_on_doubles :
  (forall s : Semaphore float,
     release s =
       _wakeUpNext {| _value := (_value s + 1)%float;
                      _waiters := _waiters s |}) /\
  (forall (z : Z) (next : handle) (rest : list handle),
     (0 <= z < max_safe)%Z ->
     _wakeUpNext (mkSemaphore (double_of (z + 1)) (next :: rest)) =
       (mkSemaphore (double_of z) rest, Some next) /\
     release (mkSemaphore (double_of z) (next :: rest)) =
       (mkSemaphore (double_of z) rest, Some next)) /\
  (forall z : Z,
     (0 <= z < max_safe)%Z ->
     release (mkSemaphore (double_of z) []) =
       (mkSemaphore (double_of (z + 1)) [], None) /\
     integer_of (double_of (z + 1)) = Some (z + 1)%Z) /\
  (forall (n : nat) (z : Z) (ws : list handle),
     (0 <= z)%Z -> (z + Z.of_nat n <= max_safe)%Z ->
     release_many n (mkSemaphore (double_of z) ws) =
       (mkSemaphore (double_of (z + Z.of_nat (n - length ws))) (skipn n ws),
        firstn n ws)).
Proof.
  split; [reflexivity|]. split; [|split].
  - intros z next rest Hz. split.
    + unfold _wakeUpNext. cbn [_waiters _value sub one float_Number].
      rewrite double_of_pred by lia. replace (z + 1 - 1)%Z with z by lia.
      reflexivity.
    + rewrite (release_head (mkSemaphore (double_of z) (next :: rest)) eq_refl).
      cbn [_value add sub one float_Number].
      rewrite double_of_succ, double_of_pred by lia.
      replace (z + 1 - 1)%Z with z by lia. reflexivity.
  - intros z Hz. split; [|apply integer_of_double_of; lia].
    rewrite (release_empty (mkSemaphore (double_of z) []) eq_refl).
    cbn [_value add one float_Number]. rewrite double_of_succ by lia.
    reflexivity.
  - intros n z ws. apply release_many_doubles.
Qed.

(** ** [run] *)

Lemma run_alone (num : Type) (N : Number num) (T : Type)
  (before during : list op) (r : settled T) (w : World num) :
  locked (this w) = false -> queries_only before -> queries_only during ->
  run before during r w =
    Some ({| this := {| _value := add (sub (_value (this w)) one) one;
                        _waiters := [] |};
             promises := promises w |},
          [AcquireCalled T Returned; TaskInvoked T;
           ReleaseCalled T None; RunSettled r]).
Proof.
  unfold run, run_acquire, run_task, run_finally.
  intros Hl Hb Hd. unfold acquire_call. rewrite (acquire_fast _ _ Hl).
  assert (E1 : forall u : World num, fst (exec before u) = u)
    by (intros u; apply exec_queries; exact Hb).
  assert (E2 : forall u : World num, fst (exec during u) = u)
    by (intros u; apply exec_queries; exact Hd).
  match goal with |- context [exec before ?u] =>
    specialize (E1 u); destruct (exec before u) as [w2 es] end.
  cbn [fst] in E1. subst w2. cbn [granted].
  match goal with |- context [exec during ?u] =>
    specialize (E2 u); destruct (exec during u) as [w4 es'] end.
  cbn [fst] in E2. subst w4. unfold release_call. cbn [this promises].
  apply locked_false_waiters in Hl.
  rewrite (release_empty (mkSemaphore _ _) Hl). reflexivity.
Qed.

(** C8, as amended.  A call of [run] that gets past its [acquire] calls
    [acquire] once, then the task once, then [release] once, and only then
    settles as the task did, with the same value or the same reason; on the
    object it acts as one [acquire] before and one [release] after whatever
    is called in between.  It gets past its [acquire] unless that call
    suspended and no [release] has yet called its [resolve].  When the
    counter is an integer from 1 to 2^53 - 1, nobody waits and nobody else
    acquires or releases meanwhile, [run] completes and leaves the object
    exactly as it found it, whether the task succeeds or fails. *)
Theorem run_releases_exactly_once_on_doubles
  (T : Type) (before during : list op) (r : settled T) (w : World float) :
  (forall w' l, run before during r w = Some (w', l) ->
     (exists a woken,
        l = [AcquireCalled T a; TaskInvoked T;
             ReleaseCalled T woken; RunSettled r]) /\
     fst (exec (Acquire :: before ++ during ++ [Release]) w) = w') /\
  (run before during r w = None <->
     exists h, snd (acquire_call w) = Suspended h /\
       ~ In (Resumed h) (snd (exec before (fst (acquire_call w))))) /\
  (forall (z : Z) (p : nat),
     (1 <= z <= max_safe)%Z -> queries_only before -> queries_only during ->
     run before during r
       {| this := mkSemaphore (double_of z) []; promises := p |} =
       Some ({| this := mkSemaphore (double_of z) []; promises := p |},
             [AcquireCalled T Returned; TaskInvoked T;
              ReleaseCalled T None; RunSettled r])).
Proof.
  split; [|split; [split|]].
  - intros w' l H. split; [|exact (run_exec _ _ _ _ H)]. revert H.
    unfold run, run_acquire, run_task, run_finally.
    destruct (acquire_call w) as [w1 a].
    destruct (exec before w1) as [w2 es]. destruct (granted a es); [|discriminate].
    destruct (exec during w2) as [w4 es']. destruct (release_call w4) as [w5 k].
    intros H; inversion H; subst. exists a, k. reflexivity.
  - unfold run, run_acquire, run_task, run_finally.
    destruct (acquire_call w) as [w1 a]. cbn [fst snd].
    destruct (exec before w1) as [w2 es]. cbn [snd].
    destruct (granted a es) eqn:Hg.
    + destruct (exec during w2) as [w4 es']. destruct (release_call w4).
      discriminate.
    + intros _. destruct a as [|h]; [discriminate|]. exists h.
      split; [reflexivity|]. rewrite <- resumes_In. intros Hin.
      cbn in Hg. assert (E : existsb (Nat.eqb h) (resumes es) = true).
      { apply existsb_exists. exists h.
        split; [exact Hin | apply Nat.eqb_refl]. }
      congruence.
  - unfold run, run_acquire, run_task, run_finally.
    intros (h & Ha & Hn). destruct (acquire_call w) as [w1 a].
    cbn [fst snd] in *. subst a. destruct (exec before w1) as [w2 es].
    cbn [snd] in Hn. destruct (granted (Suspended h) es) eqn:Hg; [|reflexivity].
    exfalso. apply Hn. cbn in Hg. apply existsb_exists in Hg as (x & Hin & Hx).
    apply Nat.eqb_eq in Hx. subst x. apply resumes_In. exact Hin.
  - intros z p Hz Hb Hd. rewrite run_alone; try assumption.
    + cbn [this promises _value add sub one float_Number].
      rewrite double_of_pred, double_of_succ by lia.
      replace (z - 1 + 1)%Z with z by lia. reflexivity.
    + change (mkSemaphore (double_of z) []) with (as_double (mkSemaphore z [])).
      cbn [this]. rewrite locked_as_double by (cbn; lia).
      apply unlocked_Z. cbn. split; [lia | reflexivity].
Qed.

(** ** The counter below zero *)

(** C3, at the failing input.  [new Semaphore(0.5)] is accepted, and the
    first call of [acquire] then leaves the counter at [-0.5], below zero,
    in a state reached by public calls alone. *)
Theorem half_a_permit_goes_below_zero :
  constructor 0.5%float = inr (mkSemaphore 0.5%float []) /\
  reachable (fst (exec [Acquire] (boot (mkSemaphore 0.5%float [])))) /\
  exec [Acquire] (boot (mkSemaphore 0.5%float [])) =
    ({| this := mkSemaphore (-0.5)%float []; promises := 0 |}, [Granted]) /\
  PrimFloat.ltb (-0.5) 0 = true.
Proof.
  split; [reflexivity|]. split; [|split; reflexivity].
  apply reachable_exec. apply (reach_construct 0.5%float). reflexivity.
Qed.

(** ** Further properties, on integer counts held in doubles *)

(** X1.  A semaphore with no waiter and an integer counter [n] of at most
    2^53 - 1 (in particular a fresh [new Semaphore(n)]) serves exactly [n]
    calls of [acquire] at once; the calls after those are queued in the
    order they are made, and the counter stops at 0. *)
Theorem capacity_then_queue (n k p : nat) :
  (Z.of_nat n <= max_safe)%Z ->
  constructor (double_of (Z.of_nat n)) =
    inr (mkSemaphore (double_of (Z.of_nat n)) []) /\
  exec (repeat Acquire (n + k))
    {| this := mkSemaphore (double_of (Z.of_nat n)) []; promises := p |} =
    ({| this := mkSemaphore 0%float (seq p k); promises := p + k |},
     repeat Granted n ++ map Enqueued (seq p k)).
Proof.
  intros Hn. split; [apply constructed_double; lia|].
  rewrite exec_doubles_fresh by (rewrite ?releases_repeat_acquire; lia).
  rewrite (proj2 (capacity_then_queue_Z n k p)). reflexivity.
Qed.

(** X2.  [release] has no cap.  On a fresh [new Semaphore(n)], [r] calls of
    [release] with nobody holding a permit raise the counter to [n + r], as
    long as that is at most 2^53 - 1: the next [n + r] calls of [acquire]
    all return at once and only the ones after them wait. *)
Theorem over_release_adds_capacity (n r k : nat) :
  (Z.of_nat (n + r) <= max_safe)%Z ->
  exec (repeat Release r ++ repeat Acquire (n + r + k))
    (boot (mkSemaphore (double_of (Z.of_nat n)) [])) =
    ({| this := mkSemaphore 0%float (seq 0 k); promises := k |},
     repeat Deposited r ++ repeat Granted (n + r) ++ map Enqueued (seq 0 k)).
Proof.
  intros Hn. unfold boot. rewrite exec_doubles_fresh.
  - fold (boot (mkSemaphore (Z.of_nat n) [])).
    rewrite over_release_adds_capacity_Z. reflexivity.
  - lia.
  - rewrite releases_app, releases_repeat_release, releases_repeat_acquire.
    lia.
Qed.

(** X3.  After any schedule on a semaphore constructed with an integer
    count [n >= 0], and as long as [n] plus the calls of [release] made is
    at most 2^53 - 1, the state depends only on how many more calls of
    [acquire] than of [release] were made, not on their order: with [d]
    that difference, the counter is [n - d] and nobody waits when [d <= n],
    and the counter is 0 with [d - n] callers waiting otherwise. *)
Theorem state_by_counts (n : Z) (ops : list op) :
  (0 <= n)%Z -> (n + Z.of_nat (releases ops) <= max_safe)%Z ->
  _value (this (fst (exec ops (boot (mkSemaphore (double_of n) []))))) =
    double_of (Z.max 0 (n - outstanding ops)) /\
  Z.of_nat (length (_waiters
    (this (fst (exec ops (boot (mkSemaphore (double_of n) []))))))) =
    Z.max 0 (outstanding ops - n).
Proof.
  intros Hn Hr. unfold boot. rewrite exec_doubles_fresh by assumption.
  fold (boot (mkSemaphore n [])).
  destruct (@state_by_counts_Z n (mkSemaphore n []) ops (constructor_fresh Hn))
    as [Hv Hw].
  cbn [fst as_doubles this as_double _value _waiters].
  rewrite Hv, Hw. split; reflexivity.
Qed.

(** X4.  Along any schedule on a semaphore constructed with an integer
    count [n >= 0], with [n] plus the calls of [release] made at most
    2^53 - 1, the permits handed out (calls of [acquire] that returned at
    once plus waiters resumed) never exceed [n] plus the calls of [release]
    made: at most [n] callers hold a permit that was not given back.  The
    gap is the counter. *)
Theorem permits_out_bounded
  (n : Z) (ops : list op) (w' : World float) (es : list event) :
  (0 <= n)%Z -> (n + Z.of_nat (releases ops) <= max_safe)%Z ->
  exec ops (boot (mkSemaphore (double_of n) [])) = (w', es) ->
  (Z.of_nat (grants es) <= n + Z.of_nat (releases ops))%Z /\
  _value (this w') =
    double_of (n + Z.of_nat (releases ops) - Z.of_nat (grants es)).
Proof.
  intros Hn Hr He. unfold boot in He.
  rewrite exec_doubles_fresh in He by assumption.
  fold (boot (mkSemaphore n [])) in He.
  destruct (exec ops (boot (mkSemaphore n []))) as [wz ez] eqn:Ez.
  cbn [fst snd] in He. inversion He; subst.
  destruct (@permits_out_bounded_Z n (mkSemaphore n []) ops wz es
              (constructor_fresh Hn) Ez) as [Heq Hle].
  split; [exact Hle|]. cbn [as_doubles this as_double _value]. f_equal. lia.
Qed.

(** X5.  On a semaphore constructed with an integer count [n >= 0], after
    any schedule such that [n] plus the calls of [release] made stays below
    2^53 - 1, a further call of [release] is never lost: either it resumes
    the waiter at the head of the queue and the counter stays 0, or nobody
    waits and it leaves the semaphore unlocked, so that the next call of
    [acquire] returns at once. *)
Theorem release_is_never_lost (n : Z) (ops : list op) (w : World float) :
  (0 <= n)%Z -> (n + Z.of_nat (releases ops) < max_safe)%Z ->
  fst (exec ops (boot (mkSemaphore (double_of n) []))) = w ->
  (exists h rest,
     _waiters (this w) = h :: rest /\
     step Release w =
       ({| this := mkSemaphore 0%float rest; promises := promises w |},
        Resumed h)) \/
  (_waiters (this w) = [] /\
   snd (step Release w) = Deposited /\
   locked (this (fst (step Release w))) = false /\
   snd (step Acquire (fst (step Release w))) = Granted).
Proof.
  intros Hn Hr <-. unfold boot. rewrite exec_doubles_fresh by lia.
  fold (boot (mkSemaphore n [])). cbn [fst].
  destruct (exec ops (boot (mkSemaphore n []))) as [wz es] eqn:Ez.
  cbn [fst].
  assert (Hreach : reachable wz).
  { change wz with (fst (wz, es)). rewrite <- Ez.
    apply reachable_exec, reachable_fresh, Hn. }
  pose proof (reachable_invariant Hreach) as Hi.
  destruct (@permits_out_bounded_Z n (mkSemaphore n []) ops wz es
              (constructor_fresh Hn) Ez) as [Heq _].
  assert (Hmax : (_value (this wz) < max_safe)%Z) by lia.
  pose proof (step_value_le Release Hi) as Hle. cbn [releases] in Hle.
  pose proof (step_invariant Release Hi) as Hi1.
  pose proof (step_value_le Acquire Hi1) as Hle1. cbn [releases] in Hle1.
  rewrite (@step_as_doubles Release wz Hi) by lia. cbn [fst snd].
  rewrite (@step_as_doubles Acquire _ Hi1) by lia. cbn [fst snd].
  cbn [as_doubles this as_double _waiters promises].
  destruct (release_is_never_lost_Z Hreach)
    as [(h & rest & Hw & Hs) | (Hw & Hd & Hl & Hg)].
  - left. exists h, rest. split; [exact Hw|]. rewrite Hs. reflexivity.
  - right. repeat split; try assumption.
    destruct Hi1 as [Hv1 _].
    change (locked (as_double (this (fst (step Release wz)))) = false).
    rewrite locked_as_double by lia. exact Hl.
Qed.

(** X9.  On a semaphore constructed with an integer count [n >= 0], after
    any schedule such that [n] plus the calls of [release] made is at most
    2^53 - 1, the counter is an integer between 0 and that bound: it is
    never below zero. *)
Theorem counter_stays_a_count (n : Z) (ops : list op) :
  (0 <= n)%Z -> (n + Z.of_nat (releases ops) <= max_safe)%Z ->
  exists z,
    (0 <= z <= n + Z.of_nat (releases ops))%Z /\
    _value (this (fst (exec ops (boot (mkSemaphore (double_of n) []))))) =
      double_of z /\
    integer_of (double_of z) = Some z /\
    PrimFloat.ltb (double_of z) 0 = false.
Proof.
  intros Hn Hr. unfold boot. rewrite exec_doubles_fresh by assumption.
  fold (boot (mkSemaphore n [])).
  destruct (exec ops (boot (mkSemaphore n []))) as [wz es] eqn:Ez.
  cbn [fst].
  assert (Hreach : reachable wz).
  { change wz with (fst (wz, es)). rewrite <- Ez.
    apply reachable_exec, reachable_fresh, Hn. }
  destruct (reachable_invariant Hreach) as [Hv _].
  destruct (@permits_out_bounded_Z n (mkSemaphore n []) ops wz es
              (constructor_fresh Hn) Ez) as [Heq _].
  exists (_value (this wz)). split; [lia|]. split; [reflexivity|].
  split; [apply integer_of_double_of | apply double_of_lt0]; lia.
Qed.

Lemma zero_round_trip (v : float) :
  PrimFloat.eqb v 0 = true -> (v + 1 - 1)%float = 0%float.
Proof.
  intros H. rewrite eqb_spec, Prim2SF_zero in H.
  rewrite <- (SF2Prim_Prim2SF v).
  destruct (Prim2SF v) as [s|s| |s m e]; try discriminate.
  - destruct s; reflexivity.
  - destruct s; discriminate.
  - destruct s; discriminate.
Qed.

(** X10.  On the double counter and for every value the constructor
    accepts, whole or not: in every reachable state a queued waiter means
    that the counter is [=== 0]. *)
Theorem waiters_only_at_zero_on_doubles (w : World float) :
  reachable w -> _waiters (this w) <> [] ->
  PrimFloat.eqb (_value (this w)) 0 = true.
Proof.
  revert w. apply (@reachable_ind_calls float _
    (fun w => _waiters (this w) <> [] ->
              PrimFloat.eqb (_value (this w)) 0 = true)).
  - intros value s H. unfold constructor in H.
    destruct (lt value zero); inversion H; subst. cbn. congruence.
  - intros o [[v ws] p] IH. cbn [this _value _waiters] in IH.
    destruct o; cbn [step].
    + exact IH.
    + unfold acquire_call. cbn [this promises].
      destruct (locked (mkSemaphore v ws)) eqn:E.
      * rewrite (acquire_slow _ _ E). cbn [fst this _value _waiters].
        intros _. destruct ws as [|x rest]; [|apply IH; discriminate].
        unfold locked in E. cbn [_value _waiters length] in E.
        rewrite orb_false_r in E. exact E.
      * rewrite (acquire_fast _ _ E). cbn [fst this _value _waiters].
        apply locked_false_waiters in E. cbn [_waiters] in E. congruence.
    + unfold release_call. cbn [this promises]. destruct ws as [|x rest].
      * rewrite (release_empty (mkSemaphore v []) eq_refl).
        cbn [fst this _waiters]. congruence.
      * rewrite (release_head (mkSemaphore v (x :: rest)) eq_refl).
        cbn [fst this _value _waiters add sub one float_Number]. intros _.
        rewrite zero_round_trip by (apply IH; discriminate). reflexivity.
Qed.

(** * Where the integer reading fails, and the theorems at work *)

(** Past 2^53 - 1: on a counter of 2^53 + 2, with nobody waiting,
    [acquire] returns at once and leaves 2^53: it has taken 2. *)
Lemma acquire_past_max_safe_takes_two :
  locked (mkSemaphore 9007199254740994%float []) = false /\
  integer_of 9007199254740994%float = Some 9007199254740994%Z /\
  acquire 0 (mkSemaphore 9007199254740994%float []) =
    (mkSemaphore 9007199254740992%float [], Returned) /\
  integer_of 9007199254740992%float = Some 9007199254740992%Z /\
  (9007199254740992 <> 9007199254740994 - 1)%Z.
Proof.
  split; [reflexivity|]. split; [vm_compute; reflexivity|].
  split; [reflexivity|]. split; [vm_compute; reflexivity | discriminate].
Qed.

(** At 2^53: [release] with nobody waiting leaves the counter at 2^53;
    it has added nothing. *)
Lemma release_at_2_53_adds_nothing :
  integer_of 9007199254740992%float = Some 9007199254740992%Z /\
  release (mkSemaphore 9007199254740992%float []) =
    (mkSemaphore 9007199254740992%float [], None) /\
  release_many 3 (mkSemaphore 9007199254740992%float []) =
    (mkSemaphore 9007199254740992%float [], []) /\
  (9007199254740992 <> 9007199254740992 + 1)%Z.
Proof.
  split; [vm_compute; reflexivity|]. split; [reflexivity|].
  split; [reflexivity | discriminate].
Qed.

(** Past 2^53 - 1: on an unlocked semaphore holding 2^53 + 2, with
    nobody else calling, a completed [run] leaves 2^53, not what it
    found. *)
Lemma run_past_max_safe_loses_permits :
  locked (mkSemaphore 9007199254740994%float []) = false /\
  run [] [] (Fulfilled tt) (boot (mkSemaphore 9007199254740994%float [])) =
    Some (boot (mkSemaphore 9007199254740992%float []),
          [AcquireCalled unit Returned; TaskInvoked unit;
           ReleaseCalled unit None; RunSettled (Fulfilled tt)]) /\
  integer_of 9007199254740994%float = Some 9007199254740994%Z /\
  integer_of 9007199254740992%float = Some 9007199254740992%Z /\
  (9007199254740992 <> 9007199254740994)%Z.
Proof.
  split; [reflexivity|]. split; [reflexivity|].
  split; [vm_compute; reflexivity|].
  split; [vm_compute; reflexivity | discriminate].
Qed.

(** Past 2^53 - 1: [new Semaphore(2^53 + 2)], one [acquire] and its
    [release]: nothing outstanding, nobody waiting, and the counter is
    2^53. *)
Lemma permits_not_conserved_past_max_safe :
  constructor 9007199254740994%float =
    inr (mkSemaphore 9007199254740994%float []) /\
  integer_of 9007199254740994%float = Some 9007199254740994%Z /\
  no_over_release [Acquire; Release] = true /\
  outstanding [Acquire; Release] = 0%Z /\
  this (fst (exec [Acquire; Release]
               (boot (mkSemaphore 9007199254740994%float [])))) =
    mkSemaphore 9007199254740992%float [] /\
  integer_of 9007199254740992%float = Some 9007199254740992%Z /\
  (9007199254740992 <> 9007199254740994)%Z.
Proof.
  split; [reflexivity|]. split; [vm_compute; reflexivity|].
  split; [reflexivity|]. split; [reflexivity|]. split; [reflexivity|].
  split; [vm_compute; reflexivity | discriminate].
Qed.

Lemma two_is_safe : (0 <= 2 <= max_safe)%Z.
Proof. split; discriminate. Defined.

Lemma permits_conserved_on_doubles_witness :
  (0 <= 2 <= max_safe)%Z /\
  no_over_release [Acquire; Acquire; Acquire; Release; Release; Release]
    = true /\
  outstanding [Acquire; Acquire; Acquire; Release; Release; Release] = 0%Z /\
  this (fst (exec [Acquire; Acquire; Acquire; Release; Release; Release]
               (boot (mkSemaphore (double_of 2) [])))) =
    mkSemaphore (double_of 2) [].
Proof.
  split; [exact two_is_safe|]. split; [reflexivity|]. split; [reflexivity|].
  exact (proj2 (proj2 (@permits_conserved_on_doubles 2
           [Acquire; Acquire; Acquire; Release; Release; Release]
           two_is_safe eq_refl eq_refl))).
Defined.

Lemma acquire_two_branches_on_doubles_witness :
  acquire 0 (mkSemaphore (double_of 2) []) =
    (mkSemaphore (double_of (2 - 1)) [], Returned) /\
  acquire 1 (mkSemaphore 0%float [0]) =
    (mkSemaphore 0%float [0; 1], Suspended 1) /\
  reachable (fst (exec [Acquire] (boot (mkSemaphore 0%float [])))) /\
  In (Resumed 1)
    (snd (exec [Release; Locked; Release]
            (fst (step Acquire
                    (fst (exec [Acquire] (boot (mkSemaphore 0%float [])))))))).
Proof.
  destruct acquire_two_branches_on_doubles as (Hs & Hz & Hw).
  split.
  { apply (Hz 2%Z 0). split; discriminate. }
  split.
  { apply (proj1 (proj2 (Hs (mkSemaphore 0%float [0]) 1))). reflexivity. }
  assert (H : reachable (fst (exec [Acquire] (boot (mkSemaphore 0%float []))))).
  { apply reachable_exec. apply (reach_construct 0%float). reflexivity. }
  split; [exact H|].
  apply (proj2 (proj2 (Hw _ [Release; Locked; Release] H eq_refl))).
  apply Nat.lt_succ_diag_r.
Defined.

Lemma release_wakes_at_most_one_on_doubles_witness :
  release (mkSemaphore (double_of 0) [3; 4]) =
    (mkSemaphore (double_of 0) [4], Some 3) /\
  release (mkSemaphore (double_of 0) []) =
    (mkSemaphore (double_of (0 + 1)) [], None) /\
  release_many 3 (mkSemaphore (double_of 0) [3; 4]) =
    (mkSemaphore (double_of (0 + Z.of_nat (3 - 2))) [], [3; 4]).
Proof.
  destruct release_wakes_at_most_one_on_doubles as (_ & Hh & He & Hm).
  split.
  { apply (Hh 0%Z 3 [4]). split; [discriminate | reflexivity]. }
  split.
  { apply (He 0%Z). split; [discriminate | reflexivity]. }
  apply (Hm 3 0%Z [3; 4]); discriminate.
Defined.

Lemma run_releases_exactly_once_on_doubles_witness :
  run [Locked] [Locked; Locked] (Rejected nat (Error "err"))
    {| this := mkSemaphore (double_of 1) []; promises := 0 |} =
    Some ({| this := mkSemaphore (double_of 1) []; promises := 0 |},
          [AcquireCalled nat Returned; TaskInvoked nat;
           ReleaseCalled nat None; RunSettled (Rejected nat (Error "err"))]).
Proof.
  apply (proj2 (proj2
           (run_releases_exactly_once_on_doubles [Locked] [Locked; Locked]
              (Rejected nat (Error "err")) (boot (mkSemaphore 0%float []))))
           1%Z 0).
  - split; discriminate.
  - repeat constructor.
  - repeat constructor.
Defined.

Lemma capacity_then_queue_witness :
  (Z.of_nat 3 <= max_safe)%Z /\
  exec (repeat Acquire (3 + 2))
    {| this := mkSemaphore (double_of (Z.of_nat 3)) []; promises := 0 |} =
    ({| this := mkSemaphore 0%float (seq 0 2); promises := 0 + 2 |},
     repeat Granted 3 ++ map Enqueued (seq 0 2)).
Proof.
  assert (H : (Z.of_nat 3 <= max_safe)%Z) by discriminate.
  split; [exact H | exact (proj2 (@capacity_then_queue 3 2 0 H))].
Defined.

Lemma over_release_adds_capacity_witness :
  (Z.of_nat (5 + 4) <= max_safe)%Z /\
  exec (repeat Release 4 ++ repeat Acquire (5 + 4 + 1))
    (boot (mkSemaphore (double_of (Z.of_nat 5)) [])) =
    ({| this := mkSemaphore 0%float (seq 0 1); promises := 1 |},
     repeat Deposited 4 ++ repeat Granted (5 + 4) ++ map Enqueued (seq 0 1)).
Proof.
  assert (H : (Z.of_nat (5 + 4) <= max_safe)%Z) by discriminate.
  split; [exact H | exact (@over_release_adds_capacity 5 4 1 H)].
Defined.

Lemma state_by_counts_witness :
  (0 <= 1)%Z /\
  (1 + Z.of_nat (releases [Acquire; Release; Acquire; Acquire; Acquire])
     <= max_safe)%Z /\
  _value (this (fst (exec [Acquire; Release; Acquire; Acquire; Acquire]
                       (boot (mkSemaphore (double_of 1) []))))) =
    double_of (Z.max 0
                 (1 - outstanding
                        [Acquire; Release; Acquire; Acquire; Acquire])).
Proof.
  assert (H0 : (0 <= 1)%Z) by discriminate.
  assert (H1 : (1 + Z.of_nat
                  (releases [Acquire; Release; Acquire; Acquire; Acquire])
                <= max_safe)%Z) by discriminate.
  split; [exact H0|]. split; [exact H1|].
  exact (proj1 (@state_by_counts 1
           [Acquire; Release; Acquire; Acquire; Acquire] H0 H1)).
Defined.

Lemma permits_out_bounded_witness :
  (0 <= 1)%Z /\
  (1 + Z.of_nat (releases [Acquire; Acquire; Release]) <= max_safe)%Z /\
  exec [Acquire; Acquire; Release] (boot (mkSemaphore (double_of 1) [])) =
    ({| this := mkSemaphore 0%float []; promises := 1 |},
     [Granted; Enqueued 0; Resumed 0]) /\
  (Z.of_nat (grants [Granted; Enqueued 0%nat; Resumed 0%nat])
     <= 1 + Z.of_nat (releases [Acquire; Acquire; Release]))%Z.
Proof.
  assert (H0 : (0 <= 1)%Z) by discriminate.
  assert (H1 : (1 + Z.of_nat (releases [Acquire; Acquire; Release])
                <= max_safe)%Z) by discriminate.
  split; [exact H0|]. split; [exact H1|]. split; [reflexivity|].
  exact (proj1 (@permits_out_bounded 1 [Acquire; Acquire; Release]
                  {| this := mkSemaphore 0%float []; promises := 1 |}
                  [Granted; Enqueued 0; Resumed 0] H0 H1 eq_refl)).
Defined.

Lemma release_is_never_lost_witness :
  (0 <= 1)%Z /\
  (1 + Z.of_nat (releases [Acquire; Acquire]) < max_safe)%Z /\
  step Release {| this := mkSemaphore 0%float [0]; promises := 1 |} =
    ({| this := mkSemaphore 0%float []; promises := 1 |}, Resumed 0).
Proof.
  assert (H0 : (0 <= 1)%Z) by discriminate.
  assert (H1 : (1 + Z.of_nat (releases [Acquire; Acquire]) < max_safe)%Z)
    by reflexivity.
  split; [exact H0|]. split; [exact H1|].
  destruct (@release_is_never_lost 1 [Acquire; Acquire]
              {| this := mkSemaphore 0%float [0]; promises := 1 |}
              H0 H1 eq_refl) as [(h & rest & Hw & Hs) | (Hw & _)].
  - inversion Hw; subst. exact Hs.
  - discriminate Hw.
Defined.

Lemma counter_stays_a_count_witness :
  (0 <= 1)%Z /\
  (1 + Z.of_nat (releases [Release; Acquire; Acquire; Acquire]) <= max_safe)%Z /\
  exists z,
    (0 <= z <= 1 + Z.of_nat (releases [Release; Acquire; Acquire; Acquire]))%Z /\
    _value (this (fst (exec [Release; Acquire; Acquire; Acquire]
                         (boot (mkSemaphore (double_of 1) []))))) =
      double_of z.
Proof.
  assert (H0 : (0 <= 1)%Z) by discriminate.
  assert (H1 : (1 + Z.of_nat (releases [Release; Acquire; Acquire; Acquire])
                <= max_safe)%Z) by discriminate.
  split; [exact H0|]. split; [exact H1|].
  destruct (@counter_stays_a_count 1 [Release; Acquire; Acquire; Acquire]
              H0 H1) as (z & Hz & Hv & _).
  exists z. split; [exact Hz | exact Hv].
Defined.

Lemma waiters_only_at_zero_on_doubles_witness :
  reachable (fst (exec [Acquire; Release; Acquire]
                    (boot (mkSemaphore 0x1p-60%float [])))) /\
  _waiters (this (fst (exec [Acquire; Release; Acquire]
                         (boot (mkSemaphore 0x1p-60%float []))))) <> [] /\
  PrimFloat.eqb
    (_value (this (fst (exec [Acquire; Release; Acquire]
                          (boot (mkSemaphore 0x1p-60%float [])))))) 0 = true.
Proof.
  assert (H : reachable (fst (exec [Acquire; Release; Acquire]
                                (boot (mkSemaphore 0x1p-60%float []))))).
  { apply reachable_exec. apply (reach_construct 0x1p-60%float). reflexivity. }
  assert (Hw : _waiters (this (fst (exec [Acquire; Release; Acquire]
                                     (boot (mkSemaphore 0x1p-60%float []))))) <> []).
  { vm_compute. discriminate. }
  split; [exact H|]. split; [exact Hw|].
  exact (waiters_only_at_zero_on_doubles H Hw).
Defined.

(** Two callers on one permit: the first is served at once, the second
    waits for the first [release]; the semaphore is locked until the
    second [release]. *)
Example one_permit_two_callers :
  exec [Acquire; Acquire; Locked; Release; Locked; Release; Locked]
    (boot (mkSemaphore 1%float [])) =
    ({| this := mkSemaphore 1%float []; promises := 1 |},
     [Granted; Enqueued 0; Queried true; Resumed 0; Queried true;
      Deposited; Queried false]).
Proof. reflexivity. Qed.

(** A failing task on one permit: [run] rejects with the task's reason and
    the next [acquire] is served at once. *)
Example failing_task_gives_permit_back :
  run [] [] (Rejected nat (Error "err")) (boot (mkSemaphore 1%float [])) =
    Some (boot (mkSemaphore 1%float []),
          [AcquireCalled nat Returned; TaskInvoked nat;
           ReleaseCalled nat None; RunSettled (Rejected nat (Error "err"))]) /\
  snd (step Acquire (boot (mkSemaphore 1%float []))) = Granted.
Proof. split; reflexivity. Qed.

(** A [run] on a taken permit waits at its [acquire] until the holder's
    [release] hands the permit over. *)
Example run_waits_for_the_holder :
  run [] [] (Fulfilled 7) (boot (mkSemaphore 0%float [])) = None /\
  run [Release] [] (Fulfilled 7) (boot (mkSemaphore 0%float [])) =
    Some ({| this := mkSemaphore 1%float []; promises := 1 |},
          [AcquireCalled nat (Suspended 0); TaskInvoked nat;
           ReleaseCalled nat None; RunSettled (Fulfilled 7)]).
Proof. split; reflexivity. Qed.

(** A count that is no integer: on 2^-60 the first [acquire] leaves -1, and
    the [release] that follows leaves 0, so the semaphore is locked with
    nobody holding a permit and nobody waiting. *)
Example a_sliver_of_a_permit :
  constructor 0x1p-60%float = inr (mkSemaphore 0x1p-60%float []) /\
  exec [Acquire; Release; Locked] (boot (mkSemaphore 0x1p-60%float [])) =
    ({| this := mkSemaphore 0%float []; promises := 0 |},
     [Granted; Deposited; Queried true]).
Proof. split; reflexivity. Qed.
